(** * re-position: the resize interaction pipeline

    A shallow embedding of [src/observables/resize.ts].

    JavaScript numbers are idealised as real numbers ([R]): arithmetic is
    exact, and there are no infinities or NaN, so every statement that
    divides names the denominators it needs to be non-zero.  Objects that
    the source compares by identity carry an address (see [Ref]). *)

From Stdlib Require Import Reals Lra Lia ZArith List Bool Zfloor Sorted.
Import ListNotations.
Local Open Scope R_scope.

(** ** Data model ([src/types], as used by resize.ts) *)

Module Position.
Record t : Type := mk { left : R; top : R; width : R; height : R }.
End Position.

Module Dimensions.
Record t : Type := mk { width : R; height : R }.
End Dimensions.

Module AngleAndDistance.
Record t : Type := mk { angle : R; distance : R }.
End AngleAndDistance.

Module Point.
Record t : Type := mk { x : R; y : R }.
End Point.

Module Corners.
Record t : Type := mk { nw : Point.t; ne : Point.t; se : Point.t; sw : Point.t }.
End Corners.

(** The 2-D affine transform [matrix(a, b, c, d, e, f)]. *)
Module Matrix.
Record t : Type := mk { a : R; b : R; c : R; d : R; e : R; f : R }.
End Matrix.

(** A length rendered with its unit suffix: the template strings
    [`${n}px`] and [`${n}%`]. *)
Inductive CssLength : Type :=
  | Px (n : R)
  | Percent (n : R).

Module PositionStrings.
Record t : Type :=
  mk { left : CssLength; top : CssLength; width : CssLength; height : CssLength }.
End PositionStrings.

(** The data-model invariant of a position: positive width and height. *)
Definition valid_position (p : Position.t) : Prop :=
  0 < Position.width p /\ 0 < Position.height p.

(** An optional boolean option ([top?: boolean]): [undefined] is falsy. *)
Definition truthy (flag : option bool) : bool :=
  match flag with
  | Some true => true
  | _ => false
  end.

(** [Math.round]: the nearest integer, ties towards plus infinity. *)
Definition Math_round (n : R) : R := IZR (Zfloor (n + / 2)).

(** ** The stages of resize.ts *)

(** [horizontalAndVerticalChange] *)
Definition horizontalAndVerticalChange (oldRotation : R)
    (angleAndDistanceChange : AngleAndDistance.t) : Dimensions.t :=
  let angleRadians :=
    (AngleAndDistance.angle angleAndDistanceChange - oldRotation) * PI / 180 in
  {| Dimensions.width :=
       AngleAndDistance.distance angleAndDistanceChange * cos angleRadians;
     Dimensions.height :=
       AngleAndDistance.distance angleAndDistanceChange * sin angleRadians |}.

(** [applyToOriginalDimensions] *)
Definition applyToOriginalDimensions (oldPosition : Position.t)
    (top right bottom left : option bool) (change : Dimensions.t) : Position.t :=
  let positionLeft :=
    if truthy left
    then Position.left oldPosition + Dimensions.width change
    else Position.left oldPosition in
  let positionTop :=
    if truthy top
    then Position.top oldPosition + Dimensions.height change
    else Position.top oldPosition in
  let positionWidth :=
    if truthy left
    then Position.width oldPosition - Dimensions.width change
    else if truthy right
         then Position.width oldPosition + Dimensions.width change
         else Position.width oldPosition in
  let positionHeight :=
    if truthy top
    then Position.height oldPosition - Dimensions.height change
    else if truthy bottom
         then Position.height oldPosition + Dimensions.height change
         else Position.height oldPosition in
  {| Position.left := positionLeft;
     Position.top := positionTop;
     Position.width := positionWidth;
     Position.height := positionHeight |}.

(** [limitToTwentyPxMinimum] *)
Definition limitToTwentyPxMinimum (position : Position.t) : Position.t :=
  {| Position.left := Position.left position;
     Position.top := Position.top position;
     Position.width := Rmax 20 (Position.width position);
     Position.height := Rmax 20 (Position.height position) |}.

(** [lockAspectRatio] *)
Definition lockAspectRatio (shouldLock : bool) (aspectRatio : R)
    (position : Position.t) : Position.t :=
  if negb shouldLock then position
  else if Rgt_dec (Position.width position / Position.height position) aspectRatio
  then {| Position.left := Position.left position;
          Position.top := Position.top position;
          Position.width := Position.width position;
          Position.height := Position.width position / aspectRatio |}
  else if Rlt_dec (Position.width position / Position.height position) aspectRatio
  then {| Position.left := Position.left position;
          Position.top := Position.top position;
          Position.width := Position.height position * aspectRatio;
          Position.height := Position.height position |}
  else position.

Section AnchorCorrection.

(** [corners] is imported from [../utils]; the stage is written against
    any implementation of it. *)
Variable corners : Position.t -> Matrix.t -> Corners.t.

(** [offsetForVisualConsistency] *)
Definition offsetForVisualConsistency (oldPosition : Position.t)
    (transformMatrix : Matrix.t) (top right bottom left : option bool)
    (newPosition : Position.t) : Position.t :=
  let oldCorners := corners oldPosition transformMatrix in
  let newCorners := corners newPosition transformMatrix in
  let change :=
    if truthy bottom && truthy left then
      (Point.x (Corners.ne newCorners) - Point.x (Corners.ne oldCorners),
       Point.y (Corners.ne newCorners) - Point.y (Corners.ne oldCorners))
    else if truthy top && truthy right then
      (Point.x (Corners.sw newCorners) - Point.x (Corners.sw oldCorners),
       Point.y (Corners.sw newCorners) - Point.y (Corners.sw oldCorners))
    else if truthy top || truthy left then
      (Point.x (Corners.se newCorners) - Point.x (Corners.se oldCorners),
       Point.y (Corners.se newCorners) - Point.y (Corners.se oldCorners))
    else
      (Point.x (Corners.nw newCorners) - Point.x (Corners.nw oldCorners),
       Point.y (Corners.nw newCorners) - Point.y (Corners.nw oldCorners)) in
  let changeX := fst change in
  let changeY := snd change in
  {| Position.left := Position.left newPosition - changeX;
     Position.top := Position.top newPosition - changeY;
     Position.width := Position.width newPosition;
     Position.height := Position.height newPosition |}.

End AnchorCorrection.

(** ** Helpers imported from [../utils] *)

(** [Math.atan2], the angle of the vector [(x, y)] in [(-PI, PI]]. *)
Definition Math_atan2 (y x : R) : R :=
  if Rlt_dec 0 x then atan (y / x)
  else if Rlt_dec x 0 then
    if Rle_dec 0 y then atan (y / x) + PI else atan (y / x) - PI
  else if Rlt_dec 0 y then PI / 2
  else if Rlt_dec y 0 then - (PI / 2)
  else 0.

(** Modelled from the spec: [angleBetweenPoints] of [../utils] is missing
    from the sources.  The atan2-based angle from [(x0, y0)] to [(x1, y1)]
    in screen coordinates (y grows downwards), in degrees within
    [0, 360). *)
Definition angleBetweenPoints (x0 y0 x1 y1 : R) : R :=
  let degrees := Math_atan2 (y1 - y0) (x1 - x0) * 180 / PI in
  if Rlt_dec degrees 0 then degrees + 360 else degrees.

(** Modelled from the spec: [distanceBetweenPoints] of [../utils] is
    missing from the sources.  The Euclidean distance. *)
Definition distanceBetweenPoints (x0 y0 x1 y1 : R) : R :=
  sqrt ((x1 - x0) * (x1 - x0) + (y1 - y0) * (y1 - y0)).

(** Applying an affine transform to a point. *)
Definition applyToPoint (m : Matrix.t) (x y : R) : Point.t :=
  {| Point.x := Matrix.a m * x + Matrix.c m * y + Matrix.e m;
     Point.y := Matrix.b m * x + Matrix.d m * y + Matrix.f m |}.

(** Modelled from the spec: [corners] of [../utils] is missing from the
    sources.  It applies the matrix to the four corners implied by the
    position and returns the screen-space points. *)
Definition corners (position : Position.t) (matrix : Matrix.t) : Corners.t :=
  let l := Position.left position in
  let t := Position.top position in
  let w := Position.width position in
  let h := Position.height position in
  {| Corners.nw := applyToPoint matrix l t;
     Corners.ne := applyToPoint matrix (l + w) t;
     Corners.se := applyToPoint matrix (l + w) (t + h);
     Corners.sw := applyToPoint matrix l (t + h) |}.

(** The nearest multiple of [step]. *)
Definition snapValue (step n : R) : R := Math_round (n / step) * step.

(** Modelled from the spec: [snapObjectValues] of [../utils] is missing
    from the sources.  With a step set, each of left, top, width and height
    is rounded to the nearest multiple of the step; otherwise it is the
    identity. *)
Definition snapObjectValues (snap : option R) (position : Position.t)
    : Position.t :=
  match snap with
  | Some step =>
      {| Position.left := snapValue step (Position.left position);
         Position.top := snapValue step (Position.top position);
         Position.width := snapValue step (Position.width position);
         Position.height := snapValue step (Position.height position) |}
  | None => position
  end.

(** Modelled from the spec: [round] of [../utils] is missing from the
    sources.  It rounds to a fixed, small number of decimal places; the
    number of places is the parameter [decimals]. *)
Definition round (decimals : nat) (n : R) : R :=
  Math_round (n * 10 ^ decimals) / 10 ^ decimals.

(** The identity transform. *)
Definition identityMatrix : Matrix.t :=
  {| Matrix.a := 1; Matrix.b := 0; Matrix.c := 0;
     Matrix.d := 1; Matrix.e := 0; Matrix.f := 0 |}.

(** ** Events and the element as the handlers read it *)

Module MouseEvent.
Record t : Type :=
  mk { which : Z; clientX : R; clientY : R; shiftKey : bool }.
End MouseEvent.

(** [parent.offsetWidth] and [parent.offsetHeight]. *)
Module Parent.
Record t : Type := mk { offsetWidth : R; offsetHeight : R }.
End Parent.

(** What [positionOfElement], [rotationOfElement],
    [transformMatrixOfElement] and [scaleOfElement] return for the element
    when a mousedown handler runs. *)
Module Element.
Record t : Type :=
  mk { position : Position.t;
       rotation : R;
       transformMatrix : Matrix.t;
       scale : R }.
End Element.

(** [angleAndDistanceFromPointToMouseEvent] *)
Definition angleAndDistanceFromPointToMouseEvent (originX originY scale : R)
    (e : MouseEvent.t) : AngleAndDistance.t :=
  {| AngleAndDistance.angle :=
       angleBetweenPoints originX originY
         (MouseEvent.clientX e) (MouseEvent.clientY e);
     AngleAndDistance.distance :=
       distanceBetweenPoints originX originY
         (MouseEvent.clientX e) (MouseEvent.clientY e) / scale |}.

(** [convertDimensionsToPercent] *)
Definition convertDimensionsToPercent (decimals : nat)
    (shouldConvertToPercent : bool) (parent : Parent.t)
    (position : Position.t) : PositionStrings.t :=
  if shouldConvertToPercent then
    {| PositionStrings.left :=
         Percent (round decimals
           (Position.left position / Parent.offsetWidth parent * 100));
       PositionStrings.top :=
         Percent (round decimals
           (Position.top position / Parent.offsetHeight parent * 100));
       PositionStrings.width :=
         Percent (round decimals
           (Position.width position / Parent.offsetWidth parent * 100));
       PositionStrings.height :=
         Percent (round decimals
           (Position.height position / Parent.offsetHeight parent * 100)) |}
  else
    {| PositionStrings.left := Px (round decimals (Position.left position));
       PositionStrings.top := Px (round decimals (Position.top position));
       PositionStrings.width := Px (round decimals (Position.width position));
       PositionStrings.height :=
         Px (round decimals (Position.height position)) |}.

(** ** Object identity

    The stages build their results as object literals, and
    [distinctUntilChanged()] without a comparator compares consecutive
    values with [===], which on objects is identity.  An object is its
    value together with the address it was allocated at. *)

Record Ref (A : Type) : Type := mkRef { addr : nat; deref : A }.
Arguments mkRef {A} addr deref.
Arguments addr {A} r.
Arguments deref {A} r.

(** Computations that allocate: the next free address is threaded. *)
Definition Alloc (A : Type) : Type := nat -> A * nat.

Definition ret {A : Type} (v : A) : Alloc A := fun n => (v, n).

Definition bind {A B : Type} (m : Alloc A) (k : A -> Alloc B) : Alloc B :=
  fun n => let (v, n') := m n in k v n'.

Notation "x <- m ;; k" := (bind m (fun x => k))
  (at level 61, m at next level, right associativity).

(** An object literal evaluates to a fresh object. *)
Definition new {A : Type} (v : A) : Alloc (Ref A) :=
  fun n => (mkRef n v, S n).

(** [===] on objects. *)
Definition strictEquals {A : Type} (o1 o2 : Ref A) : bool :=
  Nat.eqb (addr o1) (addr o2).

(** [snapObjectValues] on objects: the identity returns its argument,
    rounding builds a new object. *)
Definition snapObjectValuesRef (snap : option R) (position : Ref Position.t)
    : Alloc (Ref Position.t) :=
  match snap with
  | Some _ => new (snapObjectValues snap (deref position))
  | None => ret position
  end.

(** [distinctUntilChanged()] of rxjs: does [value] pass, given the value
    that passed last? *)
Definition distinctUntilChanged {A : Type} (previous : option (Ref A))
    (value : Ref A) : bool :=
  match previous with
  | None => true
  | Some p => negb (strictEquals p value)
  end.

(** ** The frame throttle *)

(** Modelled from the spec: [requestAnimationFramesUntil] of [./misc] is
    missing from the sources.  It keeps the most recent sample; at a frame
    boundary it emits the kept sample, if any; when the termination signal
    fires it first flushes the kept sample, then invokes the completion
    callback and terminates.  The three definitions are its reactions;
    its state is the kept sample. *)
Definition throttleSample {A : Type} (sample : A) (kept : option A) : option A :=
  Some sample.

Definition throttleFrame {A : Type} (kept : option A) : option A * list A :=
  match kept with
  | Some sample => (None, [sample])
  | None => (None, [])
  end.

Definition throttleUntil {A : Type} (kept : option A) : list A :=
  match kept with
  | Some sample => [sample]
  | None => []
  end.

(** ** The resize observable *)

(** [ResizeObservableOptions], without the two elements.  [onComplete]
    records whether a callback was given. *)
Module Options.
Record t : Type :=
  mk { onComplete : bool;
       top : option bool;
       right : option bool;
       bottom : option bool;
       left : option bool;
       shouldConvertToPercent : option bool;
       snap : option R }.
End Options.

(** What the subscriber receives, with the session that produced it and
    the position before unit conversion. *)
Module Emission.
Record t : Type :=
  mk { session : nat; position : Position.t; strings : PositionStrings.t }.
End Emission.

(** The inner observable of [switchMap]: the mousedown event, the snapshot
    taken from the element, the memory of [distinctUntilChanged] and the
    sample kept by the throttle. *)
Module Session.
Record t : Type :=
  mk { id : nat;
       e : MouseEvent.t;
       oldPosition : Position.t;
       oldRotation : R;
       transformMatrix : Matrix.t;
       scale : R;
       previous : option (Ref Position.t);
       kept : option Emission.t }.
End Session.

Module State.
Record t : Type :=
  mk { active : option Session.t;
       nextAddress : nat;
       started : nat;
       completions : nat }.
End State.

Inductive Event : Type :=
  | MouseDown (e : MouseEvent.t) (element : Element.t)
  | MouseMove (e : MouseEvent.t) (parent : Parent.t)
  | MouseUp
  | AnimationFrame.

Section ResizeObservable.

Variable decimals : nat.
Variable options : Options.t.

(** Destructuring default: [shouldConvertToPercent = true]. *)
Definition shouldConvert : bool :=
  match Options.shouldConvertToPercent options with
  | Some b => b
  | None => true
  end.

(** Lines 65-68: the snapshot of a new session. *)
Definition startSession (id : nat) (e : MouseEvent.t) (element : Element.t)
    : Session.t :=
  {| Session.id := id;
     Session.e := e;
     Session.oldPosition := Element.position element;
     Session.oldRotation := Element.rotation element;
     Session.transformMatrix := Element.transformMatrix element;
     Session.scale := Element.scale element;
     Session.previous := None;
     Session.kept := None |}.

(** Lines 71-89: the stages before [distinctUntilChanged]. *)
Definition beforeDistinct (s : Session.t) (move : MouseEvent.t)
    : Alloc (Ref Position.t) :=
  angleAndDistance <-
    new (angleAndDistanceFromPointToMouseEvent
           (MouseEvent.clientX (Session.e s)) (MouseEvent.clientY (Session.e s))
           (Session.scale s) move) ;;
  change <-
    new (horizontalAndVerticalChange (Session.oldRotation s)
           (deref angleAndDistance)) ;;
  applied <-
    new (applyToOriginalDimensions (Session.oldPosition s)
           (Options.top options) (Options.right options)
           (Options.bottom options) (Options.left options) (deref change)) ;;
  limited <- new (limitToTwentyPxMinimum (deref applied)) ;;
  snapObjectValuesRef (Options.snap options) limited.

(** Lines 91-106: aspect lock and anchor correction. *)
Definition afterDistinct (s : Session.t) (position : Position.t)
    : Position.t :=
  offsetForVisualConsistency corners (Session.oldPosition s)
    (Session.transformMatrix s)
    (Options.top options) (Options.right options)
    (Options.bottom options) (Options.left options)
    (lockAspectRatio (MouseEvent.shiftKey (Session.e s))
       (Position.width (Session.oldPosition s)
        / Position.height (Session.oldPosition s))
       position).

(** Lines 107-112: the emitted value. *)
Definition emission (s : Session.t) (parent : Parent.t)
    (position : Position.t) : Emission.t :=
  {| Emission.session := Session.id s;
     Emission.position := position;
     Emission.strings :=
       convertDimensionsToPercent decimals shouldConvert parent position |}.

Definition withSample (s : Session.t) (previous : option (Ref Position.t))
  (kept : option Emission.t) : Session.t :=
{| Session.id := Session.id s;
   Session.e := Session.e s;
   Session.oldPosition := Session.oldPosition s;
   Session.oldRotation := Session.oldRotation s;
   Session.transformMatrix := Session.transformMatrix s;
   Session.scale := Session.scale s;
   Session.previous := previous;
   Session.kept := kept |}.

(** One document mousemove through [move$] into the throttle. *)
Definition onMouseMove (s : Session.t) (move : MouseEvent.t)
    (parent : Parent.t) : Alloc Session.t :=
  snapped <- beforeDistinct s move ;;
  ret (if distinctUntilChanged (Session.previous s) snapped
       then withSample s (Some snapped)
              (throttleSample
                 (emission s parent (afterDistinct s (deref snapped)))
                 (Session.kept s))
       else s).

Definition withKept (s : Session.t) (kept : option Emission.t) : Session.t :=
  withSample s (Session.previous s) kept.

(** [createResizeObservable] as a transition function: the new state and
    the values emitted to the subscriber.  [filter] drops a mousedown
    that is not a left click; [switchMap] unsubscribes from the running
    inner observable and subscribes to a new one. *)
Definition step (st : State.t) (ev : Event) : State.t * list Emission.t :=
  match ev with
  | MouseDown e element =>
      if (MouseEvent.which e =? 1)%Z then
        ({| State.active := Some (startSession (State.started st) e element);
            State.nextAddress := State.nextAddress st;
            State.started := S (State.started st);
            State.completions := State.completions st |}, [])
      else (st, [])
  | MouseMove move parent =>
      match State.active st with
      | Some s =>
          let (s', next) := onMouseMove s move parent (State.nextAddress st) in
          ({| State.active := Some s';
              State.nextAddress := next;
              State.started := State.started st;
              State.completions := State.completions st |}, [])
      | None => (st, [])
      end
  | AnimationFrame =>
      match State.active st with
      | Some s =>
          let (kept, out) := throttleFrame (Session.kept s) in
          ({| State.active := Some (withKept s kept);
              State.nextAddress := State.nextAddress st;
              State.started := State.started st;
              State.completions := State.completions st |}, out)
      | None => (st, [])
      end
  | MouseUp =>
      match State.active st with
      | Some s =>
          ({| State.active := None;
              State.nextAddress := State.nextAddress st;
              State.started := State.started st;
              State.completions :=
                if Options.onComplete options
                then S (State.completions st)
                else State.completions st |},
           throttleUntil (Session.kept s))
      | None => (st, [])
      end
  end.

(** A sequence of events from a state: the final state and everything
    emitted, in order. *)
Fixpoint run (st : State.t) (evs : list Event) : State.t * list Emission.t :=
  match evs with
  | [] => (st, [])
  | ev :: evs' =>
      let (st1, out1) := step st ev in
      let (st2, out2) := run st1 evs' in
      (st2, out1 ++ out2)
  end.

End ResizeObservable.

(** The observable before any mousedown. *)
Definition initial : State.t :=
  {| State.active := None;
     State.nextAddress := 0%nat;
     State.started := 0%nat;
     State.completions := 0%nat |}.

(** A transform without rotation or scale: a translation. *)
Definition translation (e f : R) : Matrix.t :=
  {| Matrix.a := 1; Matrix.b := 0; Matrix.c := 0;
     Matrix.d := 1; Matrix.e := e; Matrix.f := f |}.

(** ** Predicates used by the statements *)

(** The minimum-size bound on a position. *)
Definition at_least_twenty (p : Position.t) : Prop :=
  20 <= Position.width p /\ 20 <= Position.height p.

(** A snap configuration under which the minimum survives the snap stage:
    no step, or a positive step whose grid does not round 20 down. *)
Definition snap_keeps_minimum (snap : option R) : Prop :=
  match snap with
  | Some step => 0 < step /\ 20 <= snapValue step 20
  | None => True
  end.

(** A left-button mousedown finds the element with a valid position. *)
Definition valid_start (ev : Event) : Prop :=
  match ev with
  | MouseDown e element =>
      MouseEvent.which e = 1%Z -> valid_position (Element.position element)
  | _ => True
  end.

(** The value that reaches [distinctUntilChanged] for a mousemove: the
    composition of the stages of [beforeDistinct]. *)
Definition snappedPosition (options : Options.t) (s : Session.t)
    (move : MouseEvent.t) : Position.t :=
  snapObjectValues (Options.snap options)
    (limitToTwentyPxMinimum
       (applyToOriginalDimensions (Session.oldPosition s)
          (Options.top options) (Options.right options)
          (Options.bottom options) (Options.left options)
          (horizontalAndVerticalChange (Session.oldRotation s)
             (angleAndDistanceFromPointToMouseEvent
                (MouseEvent.clientX (Session.e s))
                (MouseEvent.clientY (Session.e s))
                (Session.scale s) move)))).

(** What holds of a state while every session starts from a valid
    position: the running session's old position is valid and the sample
    kept by the throttle respects the minimum. *)
Definition minimum_invariant (st : State.t) : Prop :=
  match State.active st with
  | Some s =>
      valid_position (Session.oldPosition s) /\
      forall em, Session.kept s = Some em ->
                 at_least_twenty (Emission.position em)
  | None => True
  end.

(** Every object remembered by [distinctUntilChanged] was allocated
    before the next free address. *)
Definition fresh_invariant (st : State.t) : Prop :=
  match State.active st with
  | Some s =>
      match Session.previous s with
      | Some o => (addr o < State.nextAddress st)%nat
      | None => True
      end
  | None => True
  end.

(** ** The scenarios of the end-to-end statements *)

(** An unrotated, unscaled element at [{left:0, top:0, width:100,
    height:100}]. *)
Definition plainElement : Element.t :=
  {| Element.position := Position.mk 0 0 100 100;
     Element.rotation := 0;
     Element.transformMatrix := identityMatrix;
     Element.scale := 1 |}.

(** The se handle: right and bottom active, pixel output, no snap, with a
    completion callback. *)
Definition seHandle : Options.t :=
  {| Options.onComplete := true;
     Options.top := None;
     Options.right := Some true;
     Options.bottom := Some true;
     Options.left := None;
     Options.shouldConvertToPercent := Some false;
     Options.snap := None |}.

(** The e handle (right edge) with a 50-unit snap grid. *)
Definition eHandleSnapFifty : Options.t :=
  {| Options.onComplete := true;
     Options.top := None;
     Options.right := Some true;
     Options.bottom := None;
     Options.left := None;
     Options.shouldConvertToPercent := Some false;
     Options.snap := Some 50 |}.

(** A left-button event at [(x, y)] without modifier. *)
Definition leftButton (x y : R) : MouseEvent.t :=
  {| MouseEvent.which := 1;
     MouseEvent.clientX := x;
     MouseEvent.clientY := y;
     MouseEvent.shiftKey := false |}.

(** The events of the end-to-end scenario: mousedown at (200,200),
    mousemove to (250,240), mouseup, with any number of animation frames
    in between and after. *)
Definition seDrag (which : Z) (shiftKey : bool) (parent : Parent.t)
    (n1 n2 n3 : nat) : list Event :=
  [MouseDown (leftButton 200 200) plainElement]
    ++ repeat AnimationFrame n1
    ++ [MouseMove (MouseEvent.mk which 250 240 shiftKey) parent]
    ++ repeat AnimationFrame n2
    ++ [MouseUp]
    ++ repeat AnimationFrame n3.

(** Sessions are numbered as they start: a running session has a number
    below the count of started sessions, and its kept sample is its own. *)
Definition session_invariant (st : State.t) : Prop :=
  match State.active st with
  | Some s =>
      (Session.id s < State.started st)%nat /\
      forall em, Session.kept s = Some em ->
                 Emission.session em = Session.id s
  | None => True
  end.

(** Nothing in the state belongs to a session numbered below [k]. *)
Definition sessions_from (k : nat) (st : State.t) : Prop :=
  (k <= State.started st)%nat /\
  match State.active st with
  | Some s =>
      (k <= Session.id s)%nat /\
      forall em, Session.kept s = Some em -> (k <= Emission.session em)%nat
  | None => True
  end.

(** The state after the first mousedown. *)
Definition started_state (x y : R) (element : Element.t) : State.t :=
  {| State.active := Some (startSession 0 (leftButton x y) element);
     State.nextAddress := 0%nat;
     State.started := 1%nat;
     State.completions := 0%nat |}.

(** ** Further notions used by the statements *)

(** A position moved by [(dx, dy)], its size kept. *)
Definition movePosition (p : Position.t) (dx dy : R) : Position.t :=
  {| Position.left := Position.left p + dx;
     Position.top := Position.top p + dy;
     Position.width := Position.width p;
     Position.height := Position.height p |}.

(** The corner whose displacement [offsetForVisualConsistency] measures,
    by its chain of tests on the edge flags. *)
Inductive Anchor : Type := AnchorNW | AnchorNE | AnchorSE | AnchorSW.

Definition anchorOf (top right bottom left : option bool) : Anchor :=
  if truthy bottom && truthy left then AnchorNE
  else if truthy top && truthy right then AnchorSW
  else if truthy top || truthy left then AnchorSE
  else AnchorNW.

Definition cornerAt (anchor : Anchor) (cs : Corners.t) : Point.t :=
  match anchor with
  | AnchorNW => Corners.nw cs
  | AnchorNE => Corners.ne cs
  | AnchorSE => Corners.se cs
  | AnchorSW => Corners.sw cs
  end.

(** An implementation of [corners] under which, for the matrix [m], moving
    a position by [(dx, dy)] moves each of its corners by [(dx, dy)]. *)
Definition moves_with_position
    (corners : Position.t -> Matrix.t -> Corners.t) (m : Matrix.t) : Prop :=
  forall (p : Position.t) (dx dy : R) (anchor : Anchor),
    cornerAt anchor (corners (movePosition p dx dy) m)
    = Point.mk (Point.x (cornerAt anchor (corners p m)) + dx)
               (Point.y (cornerAt anchor (corners p m)) + dy).

(** A mousedown that [filter] lets through. *)
Definition isLeftMouseDown (ev : Event) : bool :=
  match ev with
  | MouseDown e _ => (MouseEvent.which e =? 1)%Z
  | _ => false
  end.

(** A mousedown that [filter] drops. *)
Definition isOtherMouseDown (ev : Event) : bool :=
  match ev with
  | MouseDown e _ => negb (MouseEvent.which e =? 1)%Z
  | _ => false
  end.

Definition isMoveOrFrame (ev : Event) : bool :=
  match ev with
  | MouseMove _ _ | AnimationFrame => true
  | _ => false
  end.

(** Two sessions with the same number, mousedown event and snapshot. *)
Definition sameSnapshot (s s' : Session.t) : Prop :=
  Session.id s' = Session.id s /\
  Session.e s' = Session.e s /\
  Session.oldPosition s' = Session.oldPosition s /\
  Session.oldRotation s' = Session.oldRotation s /\
  Session.transformMatrix s' = Session.transformMatrix s /\
  Session.scale s' = Session.scale s.

Definition isPercent (l : CssLength) : bool :=
  match l with
  | Percent _ => true
  | Px _ => false
  end.

(** All four fields are percentages ([true]) or all four are pixels
    ([false]). *)
Definition unitsAre (percent : bool) (strings : PositionStrings.t) : Prop :=
  isPercent (PositionStrings.left strings) = percent /\
  isPercent (PositionStrings.top strings) = percent /\
  isPercent (PositionStrings.width strings) = percent /\
  isPercent (PositionStrings.height strings) = percent.

(** The sessions that have started and not been completed by a mouseup:
    at most the running one is among them. *)
Definition running (st : State.t) : nat :=
  match State.active st with
  | Some _ => 1%nat
  | None => 0%nat
  end.

(** The nw handle (top and left edges) with a 50-unit snap grid. *)
Definition nwHandleSnapFifty : Options.t :=
  {| Options.onComplete := true;
     Options.top := Some true;
     Options.right := None;
     Options.bottom := None;
     Options.left := Some true;
     Options.shouldConvertToPercent := Some false;
     Options.snap := Some 50 |}.

(** A second reading of [corners], used as an example: the matrix acts
    about the centre of the position, as a transform with its origin at
    the centre of the element does.  Each corner is the centre plus the
    linear part of the matrix applied to the half extents, plus the
    translation of the matrix. *)
Definition centredCorners (position : Position.t) (matrix : Matrix.t)
    : Corners.t :=
  let w2 := Position.width position / 2 in
  let h2 := Position.height position / 2 in
  let cx := Position.left position + w2 + Matrix.e matrix in
  let cy := Position.top position + h2 + Matrix.f matrix in
  let around (x y : R) : Point.t :=
    {| Point.x := cx + Matrix.a matrix * x + Matrix.c matrix * y;
       Point.y := cy + Matrix.b matrix * x + Matrix.d matrix * y |} in
  {| Corners.nw := around (- w2) (- h2);
     Corners.ne := around w2 (- h2);
     Corners.se := around w2 h2;
     Corners.sw := around (- w2) h2 |}.

(** ** Proof steps *)

(** Record projections and flag tests of concrete values, leaving the
    real-number expressions as they are. *)
Ltac project :=
  cbn [Position.left Position.top Position.width Position.height
       Dimensions.width Dimensions.height
       AngleAndDistance.angle AngleAndDistance.distance
       Point.x Point.y Corners.nw Corners.ne Corners.se Corners.sw
       Matrix.a Matrix.b Matrix.c Matrix.d Matrix.e Matrix.f
       Session.id Session.e Session.oldPosition Session.oldRotation
       Session.transformMatrix Session.scale Session.previous Session.kept
       Element.position Element.rotation Element.transformMatrix
       Element.scale
       Options.onComplete Options.top Options.right Options.bottom
       Options.left Options.shouldConvertToPercent Options.snap
       MouseEvent.which MouseEvent.clientX MouseEvent.clientY
       MouseEvent.shiftKey
       Emission.session Emission.position Emission.strings
       truthy andb orb negb fst snd] in *.

(** ** Properties of the stages *)

(** C5: the edge-application stage.  An active left edge moves [left] by
    [dx] and shrinks [width] by [dx]; an active right edge (left inactive)
    grows [width] by [dx]; likewise top and bottom with [dy]; every field
    of an inactive edge pair is the old position's.  It holds for every
    combination of flags, so in particular when at most one edge of each
    pair is active. *)
Theorem applyToOriginalDimensions_edges :
  forall (oldPosition : Position.t) (top right bottom left : option bool)
         (dx dy : R),
    let p := applyToOriginalDimensions oldPosition top right bottom left
               (Dimensions.mk dx dy) in
    (truthy left = true ->
       Position.left p = Position.left oldPosition + dx /\
       Position.width p = Position.width oldPosition - dx) /\
    (truthy right = true -> truthy left = false ->
       Position.left p = Position.left oldPosition /\
       Position.width p = Position.width oldPosition + dx) /\
    (truthy top = true ->
       Position.top p = Position.top oldPosition + dy /\
       Position.height p = Position.height oldPosition - dy) /\
    (truthy bottom = true -> truthy top = false ->
       Position.top p = Position.top oldPosition /\
       Position.height p = Position.height oldPosition + dy) /\
    (truthy left = false -> truthy right = false ->
       Position.left p = Position.left oldPosition /\
       Position.width p = Position.width oldPosition) /\
    (truthy top = false -> truthy bottom = false ->
       Position.top p = Position.top oldPosition /\
       Position.height p = Position.height oldPosition).
Proof.
  intros oldPosition top right bottom left dx dy p.
  subst p; unfold applyToOriginalDimensions; cbn.
  repeat split; intros; repeat match goal with
    | H : truthy _ = _ |- _ => rewrite H
    end; reflexivity.
Qed.

(** C10: the anchor-correction stage changes only [left] and [top]: for
    every implementation of [corners], every old position, matrix, flags
    and input position, the output has the input's width and height. *)
Theorem offsetForVisualConsistency_keeps_size :
  forall (corners : Position.t -> Matrix.t -> Corners.t)
         (oldPosition : Position.t) (transformMatrix : Matrix.t)
         (top right bottom left : option bool) (newPosition : Position.t),
    Position.width
      (offsetForVisualConsistency corners oldPosition transformMatrix
         top right bottom left newPosition)
    = Position.width newPosition /\
    Position.height
      (offsetForVisualConsistency corners oldPosition transformMatrix
         top right bottom left newPosition)
    = Position.height newPosition.
Proof.
  intros; split; reflexivity.
Qed.

(** ** Aspect-ratio lock *)

Lemma lockAspectRatio_unlocked :
  forall aspectRatio position,
    lockAspectRatio false aspectRatio position = position.
Proof. reflexivity. Qed.

Lemma lockAspectRatio_above :
  forall aspectRatio position,
    Position.width position / Position.height position > aspectRatio ->
    lockAspectRatio true aspectRatio position =
    {| Position.left := Position.left position;
       Position.top := Position.top position;
       Position.width := Position.width position;
       Position.height := Position.width position / aspectRatio |}.
Proof.
  intros aspectRatio position Habove.
  unfold lockAspectRatio; cbn.
  destruct (Rgt_dec _ _) as [_ | Hn]; [reflexivity | contradiction].
Qed.

Lemma lockAspectRatio_below :
  forall aspectRatio position,
    Position.width position / Position.height position < aspectRatio ->
    lockAspectRatio true aspectRatio position =
    {| Position.left := Position.left position;
       Position.top := Position.top position;
       Position.width := Position.height position * aspectRatio;
       Position.height := Position.height position |}.
Proof.
  intros aspectRatio position Hbelow.
  unfold lockAspectRatio; cbn.
  destruct (Rgt_dec _ _) as [Habove | _]; [unfold Rgt in Habove; lra |].
  destruct (Rlt_dec _ _) as [_ | Hn]; [reflexivity | contradiction].
Qed.

Lemma lockAspectRatio_equal :
  forall shouldLock aspectRatio position,
    Position.width position / Position.height position = aspectRatio ->
    lockAspectRatio shouldLock aspectRatio position = position.
Proof.
  intros shouldLock aspectRatio position Heq.
  unfold lockAspectRatio.
  destruct shouldLock; cbn; [| reflexivity].
  destruct (Rgt_dec _ _) as [Habove | _]; [unfold Rgt in Habove; lra |].
  destruct (Rlt_dec _ _) as [Hbelow | _]; [lra | reflexivity].
Qed.

(** Cross-multiplying a comparison of a quotient. *)
Lemma ratio_gt_cross :
  forall w h r, 0 < h -> w / h > r -> w > r * h.
Proof.
  intros w h r Hh Hgt.
  replace w with (w / h * h) by (field; lra).
  unfold Rgt in *; apply Rmult_lt_compat_r; assumption.
Qed.

Lemma ratio_lt_cross :
  forall w h r, 0 < h -> w / h < r -> w < r * h.
Proof.
  intros w h r Hh Hlt.
  replace w with (w / h * h) by (field; lra).
  apply Rmult_lt_compat_r; assumption.
Qed.

(** With a positive ratio the lock never shrinks a dimension. *)
Lemma lockAspectRatio_grows :
  forall shouldLock aspectRatio position,
    0 < Position.width position ->
    0 < Position.height position ->
    0 < aspectRatio ->
    Position.width position
      <= Position.width (lockAspectRatio shouldLock aspectRatio position) /\
    Position.height position
      <= Position.height (lockAspectRatio shouldLock aspectRatio position).
Proof.
  intros shouldLock aspectRatio position Hw Hh Hr.
  destruct shouldLock; [| rewrite lockAspectRatio_unlocked; lra].
  destruct (Rtotal_order (Position.width position / Position.height position)
              aspectRatio) as [Hlt | [Heq | Hgt]].
  - rewrite lockAspectRatio_below by assumption; cbn.
    apply ratio_lt_cross in Hlt; [| assumption].
    split; [| lra].
    rewrite Rmult_comm; lra.
  - rewrite lockAspectRatio_equal by assumption; lra.
  - rewrite lockAspectRatio_above by assumption; cbn.
    apply ratio_gt_cross in Hgt; [| assumption].
    split; [lra |].
    apply Rmult_le_reg_r with aspectRatio; [assumption |].
    replace (Position.width position / aspectRatio * aspectRatio)
      with (Position.width position) by (field; lra).
    rewrite Rmult_comm; lra.
Qed.

(** C9, as stated, fails: with the target ratio [-1] the lock turns a
    20 by 20 position into one of height [-20]. *)
Lemma lockAspectRatio_negative_ratio_shrinks :
  let position := Position.mk 0 0 20 20 in
  0 < Position.width position /\
  0 < Position.height position /\
  ~ (Position.width position
       <= Position.width (lockAspectRatio true (-1) position) /\
     Position.height position
       <= Position.height (lockAspectRatio true (-1) position)).
Proof.
  cbn zeta.
  rewrite lockAspectRatio_above by (cbn; lra).
  cbn.
  split; [lra | split; [lra |]].
  intros [_ Hh]; lra.
Qed.

(** C9, amended: for every position of positive width and height and
    every positive target ratio, [lockAspectRatio] with the lock engaged
    decreases neither dimension; so a position that is at least 20 wide
    and 20 high stays so. *)
Theorem lockAspectRatio_never_decreases :
  forall (aspectRatio : R) (position : Position.t),
    0 < Position.width position ->
    0 < Position.height position ->
    0 < aspectRatio ->
    (Position.width position
       <= Position.width (lockAspectRatio true aspectRatio position) /\
     Position.height position
       <= Position.height (lockAspectRatio true aspectRatio position)) /\
    (20 <= Position.width position -> 20 <= Position.height position ->
     20 <= Position.width (lockAspectRatio true aspectRatio position) /\
     20 <= Position.height (lockAspectRatio true aspectRatio position)).
Proof.
  intros aspectRatio position Hw Hh Hr.
  pose proof (lockAspectRatio_grows true aspectRatio position Hw Hh Hr)
    as [Hgw Hgh].
  split; [split; assumption |].
  intros Hw20 Hh20; split; lra.
Qed.

Lemma lockAspectRatio_never_decreases_witness :
  let position := Position.mk 0 0 30 20 in
  0 < Position.width position /\
  0 < Position.height position /\
  0 < 2 /\
  (Position.width position
     <= Position.width (lockAspectRatio true 2 position) /\
   Position.height position
     <= Position.height (lockAspectRatio true 2 position)) /\
  (20 <= Position.width position -> 20 <= Position.height position ->
   20 <= Position.width (lockAspectRatio true 2 position) /\
   20 <= Position.height (lockAspectRatio true 2 position)).
Proof.
  cbv zeta.
  assert (Hw : 0 < Position.width (Position.mk 0 0 30 20)) by (cbn; lra).
  assert (Hh : 0 < Position.height (Position.mk 0 0 30 20)) by (cbn; lra).
  assert (Hr : 0 < 2) by lra.
  split; [exact Hw | split; [exact Hh | split; [exact Hr |]]].
  exact (lockAspectRatio_never_decreases 2 (Position.mk 0 0 30 20) Hw Hh Hr).
Defined.

(** C4, amended: with the lock engaged and the target ratio
    [oldPosition.width / oldPosition.height] of a valid old position, for
    every candidate position of non-zero height: above the target the
    height is recomputed from the width, below it the width is recomputed
    from the height, at the target the position is returned unchanged; the
    other fields are kept, and in every case the result has exactly the
    target ratio. *)
Theorem lockAspectRatio_forces_target_ratio :
  forall (oldPosition position : Position.t),
    valid_position oldPosition ->
    Position.height position <> 0 ->
    let target := Position.width oldPosition / Position.height oldPosition in
    let ratio := Position.width position / Position.height position in
    let locked := lockAspectRatio true target position in
    (ratio > target ->
       locked = {| Position.left := Position.left position;
                   Position.top := Position.top position;
                   Position.width := Position.width position;
                   Position.height := Position.width position / target |}) /\
    (ratio < target ->
       locked = {| Position.left := Position.left position;
                   Position.top := Position.top position;
                   Position.width := Position.height position * target;
                   Position.height := Position.height position |}) /\
    (ratio = target -> locked = position) /\
    Position.width locked / Position.height locked = target.
Proof.
  intros oldPosition position [Hw Hh] Hnz target ratio locked.
  assert (Htarget : 0 < target).
  { subst target. apply Rdiv_lt_0_compat; assumption. }
  split; [| split; [| split]].
  - intros Hgt. subst locked. apply lockAspectRatio_above. exact Hgt.
  - intros Hlt. subst locked. apply lockAspectRatio_below. exact Hlt.
  - intros Heq. subst locked. apply lockAspectRatio_equal. exact Heq.
  - subst locked.
    destruct (Rtotal_order ratio target) as [Hlt | [Heq | Hgt]].
    + rewrite lockAspectRatio_below by exact Hlt; cbn. field. exact Hnz.
    + rewrite lockAspectRatio_equal by exact Heq. exact Heq.
    + rewrite lockAspectRatio_above by exact Hgt; cbn.
      assert (Hwnz : Position.width position <> 0).
      { intro H0. subst ratio. rewrite H0 in Hgt.
        unfold Rdiv in Hgt. rewrite Rmult_0_l in Hgt.
        unfold Rgt in Hgt. lra. }
      field. split; [lra | exact Hwnz].
Qed.

Lemma lockAspectRatio_forces_target_ratio_witness :
  let oldPosition := Position.mk 100 100 200 100 in
  let position := Position.mk 0 0 300 100 in
  let locked := lockAspectRatio true (200 / 100) position in
  valid_position oldPosition /\
  Position.height position <> 0 /\
  Position.width locked / Position.height locked = 200 / 100.
Proof.
  cbv zeta.
  assert (Hold : valid_position (Position.mk 100 100 200 100))
    by (split; cbn; lra).
  assert (Hnz : Position.height (Position.mk 0 0 300 100) <> 0)
    by (cbn; lra).
  split; [exact Hold | split; [exact Hnz |]].
  apply (lockAspectRatio_forces_target_ratio
           (Position.mk 100 100 200 100) (Position.mk 0 0 300 100) Hold Hnz).
Defined.

(** ** Rotation unwinding *)

Lemma quarter_turn_back : (0 - 90) * PI / 180 = - (PI / 2).
Proof. field. Qed.

(** C6: the rotation-unwind stage maps [{angle, distance}] to
    [(distance * cos ((angle - oldRotation) * PI / 180),
      distance * sin ((angle - oldRotation) * PI / 180))].  With
    [oldRotation = 90] a rightward drag (angle 0) becomes the local delta
    [(0, - distance)]: its y-component dominates its x-component, strictly
    for a drag that is not empty. *)
Theorem horizontalAndVerticalChange_unwinds_rotation :
  (forall oldRotation angle distance : R,
     horizontalAndVerticalChange oldRotation
       (AngleAndDistance.mk angle distance)
     = Dimensions.mk
         (distance * cos ((angle - oldRotation) * PI / 180))
         (distance * sin ((angle - oldRotation) * PI / 180))) /\
  (forall distance : R,
     let change :=
       horizontalAndVerticalChange 90 (AngleAndDistance.mk 0 distance) in
     Dimensions.width change = 0 /\
     Dimensions.height change = - distance /\
     Rabs (Dimensions.width change) <= Rabs (Dimensions.height change) /\
     (distance <> 0 ->
      Rabs (Dimensions.width change) < Rabs (Dimensions.height change))).
Proof.
  split; [reflexivity |].
  intros distance change.
  assert (Hw : Dimensions.width change = 0).
  { subst change; unfold horizontalAndVerticalChange; cbn.
    rewrite quarter_turn_back, cos_neg, cos_PI2. ring. }
  assert (Hh : Dimensions.height change = - distance).
  { subst change; unfold horizontalAndVerticalChange; cbn.
    rewrite quarter_turn_back, sin_neg, sin_PI2. ring. }
  rewrite Hw, Hh, Rabs_R0, Rabs_Ropp.
  repeat split.
  - apply Rabs_pos.
  - intros Hd. apply Rabs_pos_lt. exact Hd.
Qed.

Lemma horizontalAndVerticalChange_unwinds_rotation_witness :
  let change := horizontalAndVerticalChange 90 (AngleAndDistance.mk 0 10) in
  10 <> 0 /\
  Rabs (Dimensions.width change) < Rabs (Dimensions.height change).
Proof.
  cbv zeta.
  assert (Hdistance : 10 <> 0) by lra.
  split; [exact Hdistance |].
  apply (proj2 horizontalAndVerticalChange_unwinds_rotation 10).
  exact Hdistance.
Defined.

(** ** Anchor correction *)

Lemma point_eq :
  forall x1 y1 x2 y2, x1 = x2 -> y1 = y2 -> Point.mk x1 y1 = Point.mk x2 y2.
Proof. intros; subst; reflexivity. Qed.

(** With the top or left edge active (and neither of the two mixed
    combinations), the se corner of the corrected position is where the
    old position has it, for every candidate position. *)
Lemma offsetForVisualConsistency_anchors_se :
  forall (e f : R) (oldPosition newPosition : Position.t)
         (top right bottom left : option bool),
    truthy bottom && truthy left = false ->
    truthy top && truthy right = false ->
    truthy top || truthy left = true ->
    Corners.se
      (corners
         (offsetForVisualConsistency corners oldPosition (translation e f)
            top right bottom left newPosition)
         (translation e f))
    = Corners.se (corners oldPosition (translation e f)).
Proof.
  intros e f oldPosition newPosition top right bottom left Hbl Htr Htl.
  unfold offsetForVisualConsistency.
  rewrite Hbl, Htr, Htl.
  unfold corners, applyToPoint, translation; cbn.
  apply point_eq; ring.
Qed.

(** ** The minimum size through the pipeline *)

Lemma limitToTwentyPxMinimum_at_least_twenty :
  forall position, at_least_twenty (limitToTwentyPxMinimum position).
Proof.
  intros position; split; cbn; apply Rmax_l.
Qed.

Lemma Math_round_le :
  forall x y, x <= y -> Math_round x <= Math_round y.
Proof.
  intros x y Hxy. unfold Math_round.
  apply IZR_le, Zfloor_le. lra.
Qed.

Lemma snapValue_le :
  forall step x y, 0 < step -> x <= y -> snapValue step x <= snapValue step y.
Proof.
  intros step x y Hstep Hxy. unfold snapValue.
  apply Rmult_le_compat_r; [lra |].
  apply Math_round_le.
  unfold Rdiv. apply Rmult_le_compat_r; [| assumption].
  apply Rlt_le, Rinv_0_lt_compat; assumption.
Qed.

Lemma snapObjectValues_at_least_twenty :
  forall snap position,
    snap_keeps_minimum snap ->
    at_least_twenty position ->
    at_least_twenty (snapObjectValues snap position).
Proof.
  intros [step |] position Hsnap [Hw Hh]; [| split; assumption].
  destruct Hsnap as [Hstep H20].
  split; cbn.
  - apply Rle_trans with (snapValue step 20);
      [assumption | apply snapValue_le; assumption].
  - apply Rle_trans with (snapValue step 20);
      [assumption | apply snapValue_le; assumption].
Qed.

Lemma lockAspectRatio_at_least_twenty :
  forall shouldLock oldPosition position,
    valid_position oldPosition ->
    at_least_twenty position ->
    at_least_twenty
      (lockAspectRatio shouldLock
         (Position.width oldPosition / Position.height oldPosition) position).
Proof.
  intros shouldLock oldPosition position [Hw Hh] [Hw20 Hh20].
  destruct (lockAspectRatio_grows shouldLock
              (Position.width oldPosition / Position.height oldPosition)
              position) as [Hgw Hgh]; try lra.
  - apply Rdiv_lt_0_compat; assumption.
  - split; lra.
Qed.

Lemma snappedPosition_at_least_twenty :
  forall options s move,
    snap_keeps_minimum (Options.snap options) ->
    at_least_twenty (snappedPosition options s move).
Proof.
  intros options s move Hsnap. unfold snappedPosition.
  apply snapObjectValues_at_least_twenty; [assumption |].
  apply limitToTwentyPxMinimum_at_least_twenty.
Qed.

Lemma afterDistinct_at_least_twenty :
  forall options s position,
    valid_position (Session.oldPosition s) ->
    at_least_twenty position ->
    at_least_twenty (afterDistinct options s position).
Proof.
  intros options s position Hold Hposition.
  unfold afterDistinct.
  pose proof (lockAspectRatio_at_least_twenty
                (MouseEvent.shiftKey (Session.e s)) (Session.oldPosition s)
                position Hold Hposition) as [Hw Hh].
  split; cbn; assumption.
Qed.

(** With the modifier held at mousedown, the position that leaves the
    anchor correction has the ratio of the old position: the correction
    keeps the width and height that the lock produced. *)
Lemma afterDistinct_locked_ratio :
  forall options s position,
    MouseEvent.shiftKey (Session.e s) = true ->
    valid_position (Session.oldPosition s) ->
    Position.height position <> 0 ->
    Position.width (afterDistinct options s position)
      / Position.height (afterDistinct options s position)
    = Position.width (Session.oldPosition s)
        / Position.height (Session.oldPosition s).
Proof.
  intros options s position Hshift [Hw Hh] Hnz.
  unfold afterDistinct, offsetForVisualConsistency.
  cbn [Position.width Position.height].
  rewrite Hshift.
  set (target := Position.width (Session.oldPosition s)
                 / Position.height (Session.oldPosition s)).
  assert (Htarget : 0 < target) by (apply Rdiv_lt_0_compat; assumption).
  destruct (Rtotal_order (Position.width position / Position.height position)
              target) as [Hlt | [Heq | Hgt]].
  - rewrite lockAspectRatio_below by exact Hlt.
    cbn [Position.width Position.height]. field. exact Hnz.
  - rewrite lockAspectRatio_equal by exact Heq. exact Heq.
  - rewrite lockAspectRatio_above by exact Hgt.
    cbn [Position.width Position.height].
    assert (Hwnz : Position.width position <> 0).
    { intro H0. rewrite H0 in Hgt.
      unfold Rdiv in Hgt. rewrite Rmult_0_l in Hgt.
      unfold Rgt in Hgt. lra. }
    field. split; [lra | exact Hwnz].
Qed.

(** ** Allocation in [beforeDistinct] *)

(** The object that reaches [distinctUntilChanged] holds the snapped
    position and is allocated during this very mousemove. *)
Lemma beforeDistinct_spec :
  forall options s move n,
    deref (fst (beforeDistinct options s move n))
      = snappedPosition options s move /\
    (n <= addr (fst (beforeDistinct options s move n)))%nat /\
    (addr (fst (beforeDistinct options s move n))
       < snd (beforeDistinct options s move n))%nat.
Proof.
  intros options s move n.
  unfold beforeDistinct, snappedPosition, snapObjectValuesRef, bind, new, ret.
  destruct (Options.snap options); cbn; repeat split; lia.
Qed.

(** ** Runs of the observable *)

Lemma run_app :
  forall decimals options evs1 evs2 st,
    run decimals options st (evs1 ++ evs2) =
    (fst (run decimals options
            (fst (run decimals options st evs1)) evs2),
     snd (run decimals options st evs1)
       ++ snd (run decimals options
                 (fst (run decimals options st evs1)) evs2)).
Proof.
  intros decimals options evs1.
  induction evs1 as [| ev evs1 IH]; intros evs2 st; cbn [run app].
  - cbn. destruct (run decimals options st evs2); reflexivity.
  - destruct (step decimals options st ev) as [st1 out1].
    rewrite IH.
    destruct (run decimals options st1 evs1) as [st2 out2]; cbn.
    rewrite app_assoc. reflexivity.
Qed.

Lemma run_cons :
  forall decimals options ev evs st,
    run decimals options st (ev :: evs) =
    (fst (run decimals options (fst (step decimals options st ev)) evs),
     snd (step decimals options st ev)
       ++ snd (run decimals options (fst (step decimals options st ev)) evs)).
Proof.
  intros decimals options ev evs st; cbn [run].
  destruct (step decimals options st ev) as [st1 out1]; cbn.
  destruct (run decimals options st1 evs); reflexivity.
Qed.

Lemma step_minimum :
  forall decimals options st ev,
    snap_keeps_minimum (Options.snap options) ->
    valid_start ev ->
    minimum_invariant st ->
    minimum_invariant (fst (step decimals options st ev)) /\
    Forall (fun em => at_least_twenty (Emission.position em))
      (snd (step decimals options st ev)).
Proof.
  intros decimals options st ev Hsnap Hstart Hinv.
  unfold minimum_invariant in *.
  destruct ev as [e element | move parent | |]; cbn [step].
  - destruct (MouseEvent.which e =? 1)%Z eqn:Hleft; cbn.
    + split; [| constructor].
      split; [apply Hstart, Z.eqb_eq, Hleft | discriminate].
    + split; [exact Hinv | constructor].
  - destruct (State.active st) as [s |] eqn:Hactive;
      [| cbn; rewrite Hactive; split; [exact I | constructor]].
    destruct Hinv as [Hold Hkept].
    unfold onMouseMove, bind, ret.
    pose proof (beforeDistinct_spec options s move (State.nextAddress st))
      as [Hvalue _].
    destruct (beforeDistinct options s move (State.nextAddress st))
      as [snapped next]; cbn in Hvalue; cbn.
    split; [| constructor].
    destruct (distinctUntilChanged (Session.previous s) snapped); cbn.
    + split; [exact Hold |].
      intros em Hem. injection Hem as <-. cbn.
      apply afterDistinct_at_least_twenty; [exact Hold |].
      rewrite Hvalue. apply snappedPosition_at_least_twenty. exact Hsnap.
    + split; assumption.
  - destruct (State.active st) as [s |] eqn:Hactive;
      [| cbn; rewrite Hactive; split; [exact I | constructor]].
    destruct Hinv as [Hold Hkept]; cbn.
    split; [exact I |].
    destruct (Session.kept s) as [em |]; cbn.
    + constructor; [apply Hkept; reflexivity | constructor].
    + constructor.
  - destruct (State.active st) as [s |] eqn:Hactive;
      [| cbn; rewrite Hactive; split; [exact I | constructor]].
    destruct Hinv as [Hold Hkept].
    destruct (Session.kept s) as [em |]; cbn.
    + split; [split; [exact Hold | discriminate] |].
      constructor; [apply Hkept; reflexivity | constructor].
    + split; [split; [exact Hold | discriminate] | constructor].
Qed.

Lemma run_minimum :
  forall decimals options evs st,
    snap_keeps_minimum (Options.snap options) ->
    Forall valid_start evs ->
    minimum_invariant st ->
    Forall (fun em => at_least_twenty (Emission.position em))
      (snd (run decimals options st evs)).
Proof.
  intros decimals options evs.
  induction evs as [| ev evs IH]; intros st Hsnap Hstarts Hinv.
  - constructor.
  - rewrite run_cons; cbn [snd].
    inversion Hstarts as [| ? ? Hstart Hrest]; subst.
    destruct (step_minimum decimals options st ev Hsnap Hstart Hinv)
      as [Hinv' Hout].
    apply Forall_app; split; [exact Hout |].
    apply IH; assumption.
Qed.

(** ** From the pointer to the local delta *)

Lemma hypot_atan :
  forall dx dy,
    dx <> 0 ->
    sqrt (dx * dx + dy * dy) * cos (atan (dy / dx)) = Rabs dx /\
    sqrt (dx * dx + dy * dy) * sin (atan (dy / dx)) = Rabs dx * (dy / dx).
Proof.
  intros dx dy Hdx.
  set (t := dy / dx).
  assert (Hpos : 0 < 1 + t²).
  { pose proof (Rle_0_sqr t); lra. }
  assert (Hroot : sqrt (1 + t²) <> 0).
  { pose proof (sqrt_lt_R0 _ Hpos); lra. }
  assert (Hhypot : sqrt (dx * dx + dy * dy) = Rabs dx * sqrt (1 + t²)).
  { replace (dx * dx + dy * dy) with (dx² * (1 + t²))
      by (subst t; unfold Rsqr; field; exact Hdx).
    rewrite sqrt_mult; [| apply Rle_0_sqr | lra].
    rewrite sqrt_Rsqr_abs. reflexivity. }
  rewrite Hhypot, cos_atan, sin_atan.
  split; field; exact Hroot.
Qed.

(** Polar to cartesian: the distance and the [Math.atan2] angle of a
    displacement give the displacement back. *)
Lemma polar_to_cartesian :
  forall dx dy,
    sqrt (dx * dx + dy * dy) * cos (Math_atan2 dy dx) = dx /\
    sqrt (dx * dx + dy * dy) * sin (Math_atan2 dy dx) = dy.
Proof.
  intros dx dy. unfold Math_atan2.
  destruct (Rlt_dec 0 dx) as [Hpos | Hnpos].
  - destruct (hypot_atan dx dy) as [Hc Hs]; [lra |].
    rewrite Hc, Hs, Rabs_right by lra.
    split; [reflexivity | field; lra].
  - destruct (Rlt_dec dx 0) as [Hneg | Hnneg].
    + destruct (hypot_atan dx dy) as [Hc Hs]; [lra |].
      rewrite Rabs_left in Hc, Hs by assumption.
      assert (Hq : dx * (dy / dx) = dy) by (field; lra).
      destruct (Rle_dec 0 dy) as [_ | _].
      * rewrite neg_cos, neg_sin.
        split; lra.
      * assert (Hcos : cos (atan (dy / dx) - PI) = - cos (atan (dy / dx))).
        { rewrite <- neg_cos.
          rewrite <- (cos_period (atan (dy / dx) - PI) 1).
          f_equal. cbn. ring. }
        assert (Hsin : sin (atan (dy / dx) - PI) = - sin (atan (dy / dx))).
        { rewrite <- neg_sin.
          rewrite <- (sin_period (atan (dy / dx) - PI) 1).
          f_equal. cbn. ring. }
        rewrite Hcos, Hsin.
        split; lra.
    + assert (Hdx : dx = 0) by lra. subst dx.
      rewrite Rmult_0_l, Rplus_0_l.
      destruct (Rlt_dec 0 dy) as [Hypos | Hynpos].
      * rewrite sqrt_square by lra. rewrite cos_PI2, sin_PI2. lra.
      * destruct (Rlt_dec dy 0) as [Hyneg | Hynneg].
        -- replace (dy * dy) with (- dy * - dy) by ring.
           rewrite sqrt_square by lra.
           rewrite cos_neg, sin_neg, cos_PI2, sin_PI2. lra.
        -- assert (Hdy : dy = 0) by lra. subst dy.
           rewrite Rmult_0_l, sqrt_0. lra.
Qed.

(** Degrees in [0, 360) and back to radians: the same direction. *)
Lemma angleBetweenPoints_direction :
  forall x0 y0 x1 y1,
    cos ((angleBetweenPoints x0 y0 x1 y1 - 0) * PI / 180)
      = cos (Math_atan2 (y1 - y0) (x1 - x0)) /\
    sin ((angleBetweenPoints x0 y0 x1 y1 - 0) * PI / 180)
      = sin (Math_atan2 (y1 - y0) (x1 - x0)).
Proof.
  intros x0 y0 x1 y1. unfold angleBetweenPoints.
  set (theta := Math_atan2 (y1 - y0) (x1 - x0)).
  pose proof PI_neq0 as Hpi.
  cbv zeta.
  destruct (Rlt_dec (theta * 180 / PI) 0) as [_ | _].
  - replace ((theta * 180 / PI + 360 - 0) * PI / 180)
      with (theta + 2 * INR 1 * PI) by (cbn; field; exact Hpi).
    rewrite cos_period, sin_period. split; reflexivity.
  - replace ((theta * 180 / PI - 0) * PI / 180) with theta
      by (field; exact Hpi).
    split; reflexivity.
Qed.

(** For an element without rotation or scale the local delta is the
    displacement of the pointer. *)
Lemma unrotated_unscaled_change :
  forall originX originY e,
    horizontalAndVerticalChange 0
      (angleAndDistanceFromPointToMouseEvent originX originY 1 e)
    = Dimensions.mk (MouseEvent.clientX e - originX)
                    (MouseEvent.clientY e - originY).
Proof.
  intros originX originY e.
  unfold horizontalAndVerticalChange, angleAndDistanceFromPointToMouseEvent.
  cbn [AngleAndDistance.angle AngleAndDistance.distance].
  destruct (angleBetweenPoints_direction originX originY
              (MouseEvent.clientX e) (MouseEvent.clientY e)) as [Hc Hs].
  rewrite Hc, Hs.
  unfold distanceBetweenPoints.
  destruct (polar_to_cartesian (MouseEvent.clientX e - originX)
              (MouseEvent.clientY e - originY)) as [Hx Hy].
  set (r := sqrt _) in *.
  replace (r / 1) with r by field.
  rewrite Hx, Hy. reflexivity.
Qed.

(** ** Rounding *)

Lemma Math_round_integer :
  forall z : Z, Math_round (IZR z) = IZR z.
Proof.
  intros z. unfold Math_round. f_equal.
  apply Zfloor_eq. lra.
Qed.

Lemma round_integer :
  forall (decimals : nat) (z : Z), round decimals (IZR z) = IZR z.
Proof.
  intros decimals z. unfold round.
  assert (Hpow : 10 ^ decimals <> 0) by (apply pow_nonzero; lra).
  rewrite pow_IZR, <- mult_IZR, Math_round_integer, mult_IZR.
  rewrite <- pow_IZR. field. exact Hpow.
Qed.

Lemma snapValue_fifty_of_twenty : snapValue 50 20 = 0.
Proof.
  unfold snapValue, Math_round.
  replace (Zfloor (20 / 50 + / 2)) with 0%Z; [ring |].
  symmetry. apply Zfloor_eq. lra.
Qed.

Lemma snapValue_fifty_of_hundred : snapValue 50 100 = 100.
Proof.
  unfold snapValue.
  replace (100 / 50) with 2 by field.
  rewrite Math_round_integer. ring.
Qed.

Lemma snapValue_zero : forall step, snapValue step 0 = 0.
Proof.
  intros step. unfold snapValue.
  replace (0 / step) with 0 by (unfold Rdiv; ring).
  rewrite Math_round_integer. ring.
Qed.

(** ** Deduplication by identity *)

(** An object allocated now is not the one remembered from before. *)
Lemma distinctUntilChanged_fresh :
  forall (previous : option (Ref Position.t)) (value : Ref Position.t) n,
    match previous with
    | Some o => (addr o < n)%nat
    | None => True
    end ->
    (n <= addr value)%nat ->
    distinctUntilChanged previous value = true.
Proof.
  intros [o |] value n Hprevious Hvalue; [| reflexivity].
  unfold distinctUntilChanged, strictEquals.
  apply negb_true_iff, Nat.eqb_neq. lia.
Qed.

(** Every mousemove of a session passes [distinctUntilChanged] and
    becomes the sample kept by the throttle. *)
Lemma onMouseMove_passes :
  forall decimals options s move parent n,
    match Session.previous s with
    | Some o => (addr o < n)%nat
    | None => True
    end ->
    onMouseMove decimals options s move parent n =
    (withSample s (Some (fst (beforeDistinct options s move n)))
       (Some (emission decimals options s parent
                (afterDistinct options s (snappedPosition options s move)))),
     snd (beforeDistinct options s move n)).
Proof.
  intros decimals options s move parent n Hprevious.
  unfold onMouseMove, bind, ret.
  pose proof (beforeDistinct_spec options s move n) as [Hvalue [Hlow _]].
  destruct (beforeDistinct options s move n) as [snapped next].
  cbn [fst snd] in *.
  rewrite (distinctUntilChanged_fresh _ _ n Hprevious Hlow).
  unfold throttleSample. rewrite Hvalue. reflexivity.
Qed.

Lemma step_fresh :
  forall decimals options st ev,
    fresh_invariant st ->
    fresh_invariant (fst (step decimals options st ev)).
Proof.
  intros decimals options st ev Hinv.
  unfold fresh_invariant in *.
  destruct ev as [e element | move parent | |]; cbn [step].
  - destruct (MouseEvent.which e =? 1)%Z; cbn; [exact I | exact Hinv].
  - destruct (State.active st) as [s |] eqn:Hactive;
      [| cbn; rewrite Hactive; exact I].
    rewrite onMouseMove_passes by exact Hinv. cbn.
    apply (beforeDistinct_spec options s move (State.nextAddress st)).
  - destruct (State.active st) as [s |] eqn:Hactive;
      [| cbn; rewrite Hactive; exact I].
    cbn. exact I.
  - destruct (State.active st) as [s |] eqn:Hactive;
      [| cbn; rewrite Hactive; exact I].
    destruct (Session.kept s); cbn; exact Hinv.
Qed.

Lemma run_fresh :
  forall decimals options evs st,
    fresh_invariant st ->
    fresh_invariant (fst (run decimals options st evs)).
Proof.
  intros decimals options evs.
  induction evs as [| ev evs IH]; intros st Hinv; [exact Hinv |].
  rewrite run_cons; cbn [fst].
  apply IH, step_fresh, Hinv.
Qed.

Lemma initial_fresh : fresh_invariant initial.
Proof. exact I. Qed.

(** A mousemove and the next frame: the position computed for the
    mousemove is emitted, whatever was emitted before. *)
Lemma mousemove_then_frame :
  forall decimals options st s move parent,
    fresh_invariant st ->
    State.active st = Some s ->
    exists st',
      run decimals options st [MouseMove move parent; AnimationFrame]
      = (st',
         [emission decimals options s parent
            (afterDistinct options s (snappedPosition options s move))]) /\
      fresh_invariant st' /\
      exists s',
        State.active st' = Some s' /\
        Session.id s' = Session.id s /\
        Session.e s' = Session.e s /\
        Session.oldPosition s' = Session.oldPosition s /\
        Session.oldRotation s' = Session.oldRotation s /\
        Session.transformMatrix s' = Session.transformMatrix s /\
        Session.scale s' = Session.scale s /\
        Session.kept s' = None.
Proof.
  intros decimals options st s move parent Hinv Hactive.
  pose proof (run_fresh decimals options
                [MouseMove move parent; AnimationFrame] st Hinv) as Hfresh.
  revert Hfresh.
  cbn [run step]. rewrite Hactive.
  unfold fresh_invariant in Hinv. rewrite Hactive in Hinv.
  rewrite onMouseMove_passes by exact Hinv.
  cbn. intros Hfresh.
  eexists. split; [reflexivity |].
  split; [exact Hfresh |].
  eexists. split; [reflexivity |].
  cbn. repeat split; reflexivity.
Qed.

(** The emitted value depends on the session only through its snapshot. *)
Lemma emission_snapshot :
  forall decimals options s s' move parent,
    Session.id s' = Session.id s ->
    Session.e s' = Session.e s ->
    Session.oldPosition s' = Session.oldPosition s ->
    Session.oldRotation s' = Session.oldRotation s ->
    Session.transformMatrix s' = Session.transformMatrix s ->
    Session.scale s' = Session.scale s ->
    emission decimals options s' parent
      (afterDistinct options s' (snappedPosition options s' move))
    = emission decimals options s parent
        (afterDistinct options s (snappedPosition options s move)).
Proof.
  intros decimals options s s' move parent Hid He Hp Hr Hm Hs.
  unfold emission, afterDistinct, snappedPosition.
  rewrite Hid, He, Hp, Hr, Hm, Hs. reflexivity.
Qed.

(** The same mousemove in two successive frames is emitted twice:
    [distinctUntilChanged] compares the two position objects by identity,
    and they are two objects. *)
Lemma identical_samples_both_emitted :
  forall decimals options st s move parent,
    fresh_invariant st ->
    State.active st = Some s ->
    exists st',
      run decimals options st
        [MouseMove move parent; AnimationFrame;
         MouseMove move parent; AnimationFrame]
      = (st',
         [emission decimals options s parent
            (afterDistinct options s (snappedPosition options s move));
          emission decimals options s parent
            (afterDistinct options s (snappedPosition options s move))]) /\
      exists s', State.active st' = Some s' /\ Session.kept s' = None.
Proof.
  intros decimals options st s move parent Hinv Hactive.
  change [MouseMove move parent; AnimationFrame;
          MouseMove move parent; AnimationFrame]
    with ([MouseMove move parent; AnimationFrame]
            ++ [MouseMove move parent; AnimationFrame]).
  rewrite run_app.
  destruct (mousemove_then_frame decimals options st s move parent
              Hinv Hactive)
    as [st' [Hrun [Hinv' [s' [Hactive' [Hid [He [Hp [Hr [Hm [Hs _]]]]]]]]]]].
  rewrite Hrun; cbn [fst snd].
  destruct (mousemove_then_frame decimals options st' s' move parent
              Hinv' Hactive')
    as [st'' [Hrun' [_ [s'' [Hactive'' Hrest]]]]].
  rewrite Hrun'; cbn [fst snd].
  rewrite (emission_snapshot decimals options s s' move parent
             Hid He Hp Hr Hm Hs).
  exists st''. split; [reflexivity |].
  exists s''. split; [exact Hactive'' | apply Hrest].
Qed.

(** ** Frames without a new sample *)

Lemma frames_idle :
  forall decimals options k st,
    State.active st = None ->
    run decimals options st (repeat AnimationFrame k) = (st, []).
Proof.
  intros decimals options k.
  induction k as [| k IH]; intros st Hidle; [reflexivity |].
  cbn [repeat]. rewrite run_cons. cbn [step]. rewrite Hidle. cbn [fst snd].
  rewrite IH by exact Hidle. reflexivity.
Qed.

Lemma frames_nothing_kept :
  forall decimals options k st s,
    State.active st = Some s ->
    Session.kept s = None ->
    run decimals options st (repeat AnimationFrame k) = (st, []).
Proof.
  intros decimals options k.
  induction k as [| k IH]; intros st s Hactive Hkept; [reflexivity |].
  cbn [repeat]. rewrite run_cons. cbn [step]. rewrite Hactive, Hkept.
  assert (Hsame :
    {| State.active := Some (withKept s (fst (@throttleFrame Emission.t None)));
       State.nextAddress := State.nextAddress st;
       State.started := State.started st;
       State.completions := State.completions st |} = st).
  { destruct st as [active next started completions].
    destruct s as [id e p r m sc previous kept].
    cbn in *. subst. reflexivity. }
  cbn [throttleFrame fst snd] in *. rewrite Hsame.
  rewrite (IH st s Hactive Hkept). reflexivity.
Qed.

(** ** The first mousemove of a session on the plain element *)

Lemma plain_session_snapped :
  forall options id x0 y0 move,
    snappedPosition options (startSession id (leftButton x0 y0) plainElement)
      move
    = snapObjectValues (Options.snap options)
        (limitToTwentyPxMinimum
           (applyToOriginalDimensions (Position.mk 0 0 100 100)
              (Options.top options) (Options.right options)
              (Options.bottom options) (Options.left options)
              (Dimensions.mk (MouseEvent.clientX move - x0)
                             (MouseEvent.clientY move - y0)))).
Proof.
  intros options id x0 y0 move.
  unfold snappedPosition, startSession, plainElement, leftButton.
  cbn [Session.oldPosition Session.oldRotation Session.scale Session.e
       Element.position Element.rotation Element.scale
       MouseEvent.clientX MouseEvent.clientY].
  rewrite unrotated_unscaled_change. reflexivity.
Qed.

Lemma position_eq :
  forall l1 t1 w1 h1 l2 t2 w2 h2,
    l1 = l2 -> t1 = t2 -> w1 = w2 -> h1 = h2 ->
    Position.mk l1 t1 w1 h1 = Position.mk l2 t2 w2 h2.
Proof. intros; subst; reflexivity. Qed.

(** With neither the top nor the left edge active, the anchor is the nw
    corner: under a transform without rotation or scale the corrected
    position has the old left and top. *)
Lemma offsetForVisualConsistency_anchors_nw :
  forall (e f : R) (oldPosition newPosition : Position.t)
         (top right bottom left : option bool),
    truthy top = false ->
    truthy left = false ->
    offsetForVisualConsistency corners oldPosition (translation e f)
      top right bottom left newPosition
    = Position.mk (Position.left oldPosition) (Position.top oldPosition)
        (Position.width newPosition) (Position.height newPosition).
Proof.
  intros e f oldPosition newPosition top right bottom left Htop Hleft.
  unfold offsetForVisualConsistency.
  rewrite Htop, Hleft, andb_false_r. cbn [andb orb].
  unfold corners, applyToPoint, translation. project.
  apply position_eq; ring.
Qed.

Lemma snapObjectValues_literal :
  forall step l t w h,
    snapObjectValues (Some step) (Position.mk l t w h)
    = Position.mk (snapValue step l) (snapValue step t)
        (snapValue step w) (snapValue step h).
Proof. reflexivity. Qed.

(** The se handle dragged from (200,200) to (250,240). *)
Lemma se_drag_position :
  forall id which shiftKey,
    let s := startSession id (leftButton 200 200) plainElement in
    afterDistinct seHandle s
      (snappedPosition seHandle s (MouseEvent.mk which 250 240 shiftKey))
    = Position.mk 0 0 150 140.
Proof.
  intros id which shiftKey s. subst s.
  rewrite plain_session_snapped.
  unfold afterDistinct.
  unfold startSession, plainElement, seHandle, leftButton.
  project.
  rewrite lockAspectRatio_unlocked.
  change identityMatrix with (translation 0 0).
  rewrite offsetForVisualConsistency_anchors_nw by reflexivity.
  cbn [snapObjectValues].
  unfold limitToTwentyPxMinimum, applyToOriginalDimensions.
  project.
  rewrite !Rmax_right by lra.
  apply position_eq; lra.
Qed.

(** The e handle with a 50-unit grid dragged 90 units to the left. *)
Lemma e_drag_snapped_position :
  forall id which shiftKey,
    let s := startSession id (leftButton 200 200) plainElement in
    afterDistinct eHandleSnapFifty s
      (snappedPosition eHandleSnapFifty s
         (MouseEvent.mk which 110 200 shiftKey))
    = Position.mk 0 0 0 100.
Proof.
  intros id which shiftKey s. subst s.
  rewrite plain_session_snapped.
  unfold afterDistinct.
  unfold startSession, plainElement, eHandleSnapFifty, leftButton.
  project.
  rewrite lockAspectRatio_unlocked.
  change identityMatrix with (translation 0 0).
  rewrite offsetForVisualConsistency_anchors_nw by reflexivity.
  unfold limitToTwentyPxMinimum, applyToOriginalDimensions.
  project.
  rewrite snapObjectValues_literal. project.
  replace (Rmax 20 (100 + (110 - 200))) with 20 by (rewrite Rmax_left; lra).
  replace (Rmax 20 100) with 100 by (rewrite Rmax_right; lra).
  rewrite snapValue_fifty_of_twenty, snapValue_fifty_of_hundred.
  reflexivity.
Qed.

Lemma pixel_strings :
  forall decimals parent (l t w h : Z),
    convertDimensionsToPercent decimals false parent
      (Position.mk (IZR l) (IZR t) (IZR w) (IZR h))
    = PositionStrings.mk (Px (IZR l)) (Px (IZR t)) (Px (IZR w)) (Px (IZR h)).
Proof.
  intros. unfold convertDimensionsToPercent. cbn.
  rewrite !round_integer. reflexivity.
Qed.

(** A kept sample is emitted once, by the first frame or else by the
    mouseup, and the mouseup completes the session. *)
Lemma frames_then_mouseup :
  forall decimals options k st s em,
    State.active st = Some s ->
    Session.kept s = Some em ->
    run decimals options st (repeat AnimationFrame k ++ [MouseUp])
    = ({| State.active := None;
          State.nextAddress := State.nextAddress st;
          State.started := State.started st;
          State.completions :=
            if Options.onComplete options
            then S (State.completions st)
            else State.completions st |},
       [em]).
Proof.
  intros decimals options k st s em Hactive Hkept.
  destruct k as [| k].
  - cbn [repeat app run step]. rewrite Hactive, Hkept. reflexivity.
  - cbn [repeat app]. rewrite run_cons. cbn [step].
    rewrite Hactive, Hkept. cbn [throttleFrame fst snd].
    rewrite run_app.
    rewrite (frames_nothing_kept decimals options k _ (withKept s None))
      by reflexivity.
    cbn. reflexivity.
Qed.

(** C7: the se handle of the plain element, mousedown at (200,200), one
    mousemove to (250,240), mouseup, no snap, pixel output.  Whatever the
    frames in between, exactly one value is emitted, so the final emission
    is [{left:"0px", top:"0px", width:"150px", height:"140px"}], and the
    completion callback is invoked exactly once. *)
Theorem se_drag_end_to_end :
  forall (decimals : nat) (which : Z) (shiftKey : bool) (parent : Parent.t)
         (n1 n2 n3 : nat),
    let result :=
      run decimals seHandle initial (seDrag which shiftKey parent n1 n2 n3) in
    map Emission.strings (snd result)
      = [PositionStrings.mk (Px 0) (Px 0) (Px 150) (Px 140)] /\
    map Emission.position (snd result) = [Position.mk 0 0 150 140] /\
    State.completions (fst result) = 1%nat /\
    State.active (fst result) = None.
Proof.
  intros decimals which shiftKey parent n1 n2 n3 result.
  subst result. unfold seDrag.
  rewrite run_app.
  cbn [run step leftButton MouseEvent.which Z.eqb Pos.eqb fst snd
       initial State.started State.nextAddress State.completions].
  rewrite run_app.
  rewrite (frames_nothing_kept decimals seHandle n1 _
             (startSession 0 (leftButton 200 200) plainElement))
    by reflexivity.
  cbn [fst snd].
  rewrite run_app.
  cbn [run step State.active fst snd].
  rewrite onMouseMove_passes by exact I.
  cbn [fst snd State.nextAddress State.started State.completions].
  rewrite (app_assoc (repeat AnimationFrame n2) [MouseUp]
             (repeat AnimationFrame n3)).
  rewrite run_app.
  erewrite frames_then_mouseup by reflexivity.
  cbn [fst snd].
  rewrite frames_idle by reflexivity.
  cbn [fst snd app map Emission.strings Emission.position emission
       State.completions State.active seHandle Options.onComplete].
  rewrite (se_drag_position 0 which shiftKey).
  unfold shouldConvert, seHandle; cbn [Options.shouldConvertToPercent].
  rewrite (pixel_strings decimals parent 0 0 150 140).
  repeat split; reflexivity.
Qed.

(** ** The start of a session *)

Lemma step_mousedown_left :
  forall decimals options st x y element,
    step decimals options st (MouseDown (leftButton x y) element)
    = ({| State.active :=
            Some (startSession (State.started st) (leftButton x y) element);
          State.nextAddress := State.nextAddress st;
          State.started := S (State.started st);
          State.completions := State.completions st |}, []).
Proof. reflexivity. Qed.

Lemma run_from_first_mousedown :
  forall decimals options x y element evs,
    run decimals options initial (MouseDown (leftButton x y) element :: evs)
    = run decimals options (started_state x y element) evs.
Proof.
  intros decimals options x y element evs.
  rewrite run_cons, step_mousedown_left. cbn [fst snd app].
  destruct (run decimals options _ evs); reflexivity.
Qed.

Lemma started_state_fresh :
  forall x y element, fresh_invariant (started_state x y element).
Proof. intros; exact I. Qed.

(** ** The minimum size of the emitted positions *)

(** C1, as stated, fails.  The e handle of the plain element with a
    50-unit snap grid, dragged 90 units to the left: the width 10 is
    raised to 20 by the minimum stage and then rounded to 0 by the snap
    stage, which runs after it; the position emitted at the next frame has
    width 0. *)
Lemma snap_grid_breaks_minimum :
  let emitted :=
    map Emission.position
      (snd (run 2 eHandleSnapFifty initial
              [MouseDown (leftButton 200 200) plainElement;
               MouseMove (leftButton 110 200) (Parent.mk 800 600);
               AnimationFrame])) in
  emitted = [Position.mk 0 0 0 100] /\
  ~ Forall at_least_twenty emitted.
Proof.
  cbv zeta.
  rewrite run_from_first_mousedown.
  destruct (mousemove_then_frame 2 eHandleSnapFifty
              (started_state 200 200 plainElement)
              (startSession 0 (leftButton 200 200) plainElement)
              (leftButton 110 200) (Parent.mk 800 600)
              (started_state_fresh 200 200 plainElement) eq_refl)
    as [st' [Hrun _]].
  rewrite Hrun.
  cbn [snd map Emission.position emission].
  change (leftButton 110 200) with (MouseEvent.mk 1 110 200 false).
  rewrite (e_drag_snapped_position 0 1 false).
  split; [reflexivity |].
  intros Hall. inversion Hall as [| ? ? [Hwidth _] _]; subst.
  cbn [Position.width] in Hwidth. lra.
Qed.

(** C1, amended: in every run of the observable whose snap configuration
    keeps the minimum (no step, or a positive step whose grid does not
    round 20 down) and whose sessions start from an element of positive
    width and height, every emitted position has width and height of at
    least 20, before unit conversion; for every handle, every sequence of
    events and every lock state. *)
Theorem emitted_positions_at_least_twenty :
  forall (decimals : nat) (options : Options.t) (evs : list Event),
    snap_keeps_minimum (Options.snap options) ->
    Forall valid_start evs ->
    Forall (fun em => at_least_twenty (Emission.position em))
      (snd (run decimals options initial evs)).
Proof.
  intros decimals options evs Hsnap Hstarts.
  apply run_minimum; [exact Hsnap | exact Hstarts | exact I].
Qed.

Lemma emitted_positions_at_least_twenty_witness :
  snap_keeps_minimum (Options.snap seHandle) /\
  Forall valid_start (seDrag 1 false (Parent.mk 800 600) 0 1 0) /\
  Forall (fun em => at_least_twenty (Emission.position em))
    (snd (run 2 seHandle initial (seDrag 1 false (Parent.mk 800 600) 0 1 0))).
Proof.
  assert (Hsnap : snap_keeps_minimum (Options.snap seHandle)) by exact I.
  assert (Hstarts :
    Forall valid_start (seDrag 1 false (Parent.mk 800 600) 0 1 0)).
  { unfold seDrag; cbn [repeat app].
    constructor; [| repeat constructor].
    intros _. split; cbn; lra. }
  split; [exact Hsnap | split; [exact Hstarts |]].
  exact (emitted_positions_at_least_twenty 2 seHandle
           (seDrag 1 false (Parent.mk 800 600) 0 1 0) Hsnap Hstarts).
Defined.

(** ** Deduplication *)

(** C2 on the code: the se handle of the plain element; the same mousemove
    to (250,240) arrives in two successive frames.  Both are emitted, with
    the same value: nothing is suppressed. *)
Theorem duplicate_sample_emitted_twice :
  let emitted :=
    snd (run 2 seHandle initial
           [MouseDown (leftButton 200 200) plainElement;
            MouseMove (leftButton 250 240) (Parent.mk 800 600);
            AnimationFrame;
            MouseMove (leftButton 250 240) (Parent.mk 800 600);
            AnimationFrame;
            MouseUp]) in
  map Emission.strings emitted
    = [PositionStrings.mk (Px 0) (Px 0) (Px 150) (Px 140);
       PositionStrings.mk (Px 0) (Px 0) (Px 150) (Px 140)] /\
  length emitted = 2%nat.
Proof.
  cbv zeta.
  rewrite run_from_first_mousedown.
  change [MouseMove (leftButton 250 240) (Parent.mk 800 600);
          AnimationFrame;
          MouseMove (leftButton 250 240) (Parent.mk 800 600);
          AnimationFrame; MouseUp]
    with ([MouseMove (leftButton 250 240) (Parent.mk 800 600);
           AnimationFrame;
           MouseMove (leftButton 250 240) (Parent.mk 800 600);
           AnimationFrame] ++ [MouseUp]).
  rewrite run_app; cbn [snd].
  destruct (identical_samples_both_emitted 2 seHandle
              (started_state 200 200 plainElement)
              (startSession 0 (leftButton 200 200) plainElement)
              (leftButton 250 240) (Parent.mk 800 600)
              (started_state_fresh 200 200 plainElement) eq_refl)
    as [st' [Hrun [s' [Hactive Hkept]]]].
  rewrite Hrun.
  cbn [fst snd run step]. rewrite Hactive, Hkept.
  cbn [throttleUntil snd app map Emission.strings emission length].
  change (leftButton 250 240) with (MouseEvent.mk 1 250 240 false).
  rewrite (se_drag_position 0 1 false).
  unfold shouldConvert, seHandle; cbn [Options.shouldConvertToPercent].
  rewrite (pixel_strings 2 (Parent.mk 800 600) 0 0 150 140).
  split; reflexivity.
Qed.

(** ** Superseding a session *)

Lemma step_session_invariant :
  forall decimals options st ev,
    session_invariant st ->
    session_invariant (fst (step decimals options st ev)).
Proof.
  intros decimals options st ev Hinv.
  unfold session_invariant in *.
  destruct ev as [e element | move parent | |]; cbn [step].
  - destruct (MouseEvent.which e =? 1)%Z; cbn; [| exact Hinv].
    split; [lia | discriminate].
  - destruct (State.active st) as [s |] eqn:Hactive;
      [| cbn; rewrite Hactive; exact I].
    destruct Hinv as [Hid Hkept].
    unfold onMouseMove, bind, ret.
    destruct (beforeDistinct options s move (State.nextAddress st))
      as [snapped next].
    destruct (distinctUntilChanged (Session.previous s) snapped); cbn.
    + split; [exact Hid |].
      intros em Hem. injection Hem as <-. reflexivity.
    + split; assumption.
  - destruct (State.active st) as [s |] eqn:Hactive;
      [| cbn; rewrite Hactive; exact I].
    cbn. exact I.
  - destruct (State.active st) as [s |] eqn:Hactive;
      [| cbn; rewrite Hactive; exact I].
    destruct Hinv as [Hid Hkept].
    destruct (Session.kept s); cbn; (split; [exact Hid | discriminate]).
Qed.

Lemma run_session_invariant :
  forall decimals options evs st,
    session_invariant st ->
    session_invariant (fst (run decimals options st evs)).
Proof.
  intros decimals options evs.
  induction evs as [| ev evs IH]; intros st Hinv; [exact Hinv |].
  rewrite run_cons; cbn [fst].
  apply IH, step_session_invariant, Hinv.
Qed.

Lemma step_sessions_from :
  forall decimals options k st ev,
    sessions_from k st ->
    sessions_from k (fst (step decimals options st ev)) /\
    Forall (fun em => (k <= Emission.session em)%nat)
      (snd (step decimals options st ev)).
Proof.
  intros decimals options k st ev [Hstarted Hinv].
  unfold sessions_from.
  destruct ev as [e element | move parent | |]; cbn [step].
  - destruct (MouseEvent.which e =? 1)%Z; cbn.
    + split; [| constructor].
      split; [lia |]. split; [lia | discriminate].
    + split; [split; assumption | constructor].
  - destruct (State.active st) as [s |] eqn:Hactive;
      [| cbn; rewrite Hactive; split; [split; [assumption | exact I]
                                      | constructor]].
    destruct Hinv as [Hid Hkept].
    unfold onMouseMove, bind, ret.
    destruct (beforeDistinct options s move (State.nextAddress st))
      as [snapped next].
    split; [| constructor].
    destruct (distinctUntilChanged (Session.previous s) snapped); cbn.
    + split; [exact Hstarted |]. split; [exact Hid |].
      intros em Hem. injection Hem as <-. exact Hid.
    + split; [exact Hstarted |]. split; assumption.
  - destruct (State.active st) as [s |] eqn:Hactive;
      [| cbn; rewrite Hactive; split; [split; [assumption | exact I]
                                      | constructor]].
    destruct Hinv as [Hid Hkept]. cbn.
    split; [split; [exact Hstarted | exact I] |].
    destruct (Session.kept s) as [em |]; cbn.
    + constructor; [apply Hkept; reflexivity | constructor].
    + constructor.
  - destruct (State.active st) as [s |] eqn:Hactive;
      [| cbn; rewrite Hactive; split; [split; [assumption | exact I]
                                      | constructor]].
    destruct Hinv as [Hid Hkept].
    destruct (Session.kept s) as [em |]; cbn.
    + split; [split; [exact Hstarted | split; [exact Hid | discriminate]] |].
      constructor; [apply Hkept; reflexivity | constructor].
    + split; [split; [exact Hstarted | split; [exact Hid | discriminate]]
             | constructor].
Qed.

Lemma run_sessions_from :
  forall decimals options k evs st,
    sessions_from k st ->
    Forall (fun em => (k <= Emission.session em)%nat)
      (snd (run decimals options st evs)).
Proof.
  intros decimals options k evs.
  induction evs as [| ev evs IH]; intros st Hinv; [constructor |].
  rewrite run_cons; cbn [snd].
  destruct (step_sessions_from decimals options k st ev Hinv)
    as [Hinv' Hout].
  apply Forall_app; split; [exact Hout | apply IH; exact Hinv'].
Qed.

(** C8: a left-button mousedown while a session is running, after any
    history.  The mousedown itself emits nothing; the running session is
    replaced by a new one whose snapshot (position, rotation, matrix,
    scale) is the element as read at this mousedown, with nothing
    remembered and no sample kept; and from then on, whatever events
    follow, no emitted value comes from the prior session, even if it had
    a sample waiting for the next frame. *)
Theorem mousedown_supersedes_session :
  forall (decimals : nat) (options : Options.t) (history later : list Event)
         (prior : Session.t) (e : MouseEvent.t) (element : Element.t),
    State.active (fst (run decimals options initial history)) = Some prior ->
    MouseEvent.which e = 1%Z ->
    let st := fst (run decimals options initial history) in
    let restarted := step decimals options st (MouseDown e element) in
    snd restarted = [] /\
    (exists fresh,
       State.active (fst restarted) = Some fresh /\
       Session.id fresh <> Session.id prior /\
       Session.e fresh = e /\
       Session.oldPosition fresh = Element.position element /\
       Session.oldRotation fresh = Element.rotation element /\
       Session.transformMatrix fresh = Element.transformMatrix element /\
       Session.scale fresh = Element.scale element /\
       Session.previous fresh = None /\
       Session.kept fresh = None) /\
    Forall (fun em => Emission.session em <> Session.id prior)
      (snd (run decimals options (fst restarted) later)).
Proof.
  intros decimals options history later prior e element Hactive Hleft
         st restarted.
  pose proof (run_session_invariant decimals options history initial I)
    as Hinv.
  fold st in Hinv, Hactive.
  unfold session_invariant in Hinv. rewrite Hactive in Hinv.
  destruct Hinv as [Hid _].
  subst restarted. cbn [step]. rewrite Hleft. cbn [Z.eqb Pos.eqb fst snd].
  split; [reflexivity |].
  split.
  - exists (startSession (State.started st) e element).
    cbn. repeat split; try reflexivity. lia.
  - assert (Hfrom :
      Forall (fun em => (State.started st <= Emission.session em)%nat)
        (snd (run decimals options
                {| State.active :=
                     Some (startSession (State.started st) e element);
                   State.nextAddress := State.nextAddress st;
                   State.started := S (State.started st);
                   State.completions := State.completions st |} later))).
    { apply run_sessions_from. split; cbn; [lia |].
      split; [lia | discriminate]. }
    eapply Forall_impl; [| exact Hfrom].
    cbn. intros em Hem. lia.
Qed.

Lemma mousedown_supersedes_session_witness :
  let history := [MouseDown (leftButton 200 200) plainElement] in
  let prior := startSession 0 (leftButton 200 200) plainElement in
  State.active (fst (run 2 seHandle initial history)) = Some prior /\
  MouseEvent.which (leftButton 300 300) = 1%Z /\
  Forall (fun em => Emission.session em <> Session.id prior)
    (snd (run 2 seHandle
            (fst (step 2 seHandle (fst (run 2 seHandle initial history))
                    (MouseDown (leftButton 300 300) plainElement)))
            [AnimationFrame; MouseUp])).
Proof.
  cbv zeta.
  split; [reflexivity | split; [reflexivity |]].
  apply (mousedown_supersedes_session 2 seHandle
           [MouseDown (leftButton 200 200) plainElement]
           [AnimationFrame; MouseUp]
           (startSession 0 (leftButton 200 200) plainElement)
           (leftButton 300 300) plainElement);
    reflexivity.
Defined.

(** A sample kept for the next frame is dropped by the superseding
    mousedown: nothing is emitted by the frame that follows, nor by the
    mouseup. *)
Lemma kept_sample_dropped_when_superseded :
  snd (run 2 seHandle initial
         [MouseDown (leftButton 200 200) plainElement;
          MouseMove (leftButton 250 240) (Parent.mk 800 600);
          MouseDown (leftButton 300 300) plainElement;
          AnimationFrame;
          MouseUp]) = [].
Proof.
  rewrite run_from_first_mousedown.
  rewrite run_cons. cbn [step started_state State.active].
  rewrite onMouseMove_passes by exact I.
  cbn [fst snd app].
  rewrite run_cons, step_mousedown_left. cbn [fst snd app].
  reflexivity.
Qed.

(** * Further properties of the stages *)

(** ** The minimum stage *)

(** X1: [limitToTwentyPxMinimum] keeps [left] and [top], is idempotent,
    and returns its argument exactly when the argument is already at least
    20 wide and 20 high. *)
Theorem limitToTwentyPxMinimum_idempotent :
  forall position : Position.t,
    Position.left (limitToTwentyPxMinimum position) = Position.left position /\
    Position.top (limitToTwentyPxMinimum position) = Position.top position /\
    limitToTwentyPxMinimum (limitToTwentyPxMinimum position)
      = limitToTwentyPxMinimum position /\
    (limitToTwentyPxMinimum position = position <-> at_least_twenty position).
Proof.
  intros [l t w h].
  unfold limitToTwentyPxMinimum, at_least_twenty.
  cbn [Position.left Position.top Position.width Position.height].
  split; [reflexivity | split; [reflexivity | split]].
  - apply position_eq; try reflexivity.
    + apply Rmax_right, Rmax_l.
    + apply Rmax_right, Rmax_l.
  - split.
    + intros Heq. injection Heq as Hw Hh.
      split; [rewrite <- Hw | rewrite <- Hh]; apply Rmax_l.
    + intros [Hw Hh].
      apply position_eq; try reflexivity; apply Rmax_right; assumption.
Qed.

(** ** The aspect-ratio lock *)

(** X2: whatever the lock flag, the ratio and the position,
    [lockAspectRatio] keeps [left] and [top] and changes at most one of
    [width] and [height]. *)
Theorem lockAspectRatio_changes_one_dimension :
  forall (shouldLock : bool) (aspectRatio : R) (position : Position.t),
    let locked := lockAspectRatio shouldLock aspectRatio position in
    Position.left locked = Position.left position /\
    Position.top locked = Position.top position /\
    (Position.width locked = Position.width position \/
     Position.height locked = Position.height position).
Proof.
  intros shouldLock aspectRatio position locked. subst locked.
  unfold lockAspectRatio.
  destruct (negb shouldLock); [auto |].
  destruct (Rgt_dec _ _); [cbn; auto |].
  destruct (Rlt_dec _ _); cbn; auto.
Qed.

(** X3: for a positive ratio and a position of positive height, the locked
    size is the smallest size of that ratio that covers the position: the
    width becomes [max width (height * ratio)] and the height
    [max height (width / ratio)]. *)
Theorem lockAspectRatio_covering_size :
  forall (aspectRatio : R) (position : Position.t),
    0 < aspectRatio ->
    0 < Position.height position ->
    Position.width (lockAspectRatio true aspectRatio position)
      = Rmax (Position.width position) (Position.height position * aspectRatio)
    /\
    Position.height (lockAspectRatio true aspectRatio position)
      = Rmax (Position.height position) (Position.width position / aspectRatio).
Proof.
  intros aspectRatio position Hr Hh.
  assert (Hdiv : forall x, x / aspectRatio * aspectRatio = x)
    by (intros x; field; lra).
  destruct (Rtotal_order (Position.width position / Position.height position)
              aspectRatio) as [Hlt | [Heq | Hgt]].
  - rewrite lockAspectRatio_below by exact Hlt.
    cbn [Position.width Position.height].
    apply ratio_lt_cross in Hlt; [| exact Hh].
    split.
    + rewrite Rmax_right; [reflexivity | rewrite Rmult_comm; lra].
    + rewrite Rmax_left; [reflexivity |].
      apply Rmult_le_reg_r with aspectRatio; [exact Hr |].
      rewrite Hdiv. rewrite Rmult_comm. lra.
  - rewrite lockAspectRatio_equal by exact Heq.
    assert (Hw : Position.width position
                 = Position.height position * aspectRatio).
    { rewrite <- Heq. field. lra. }
    split.
    + rewrite Rmax_left; [reflexivity | lra].
    + rewrite Rmax_left; [reflexivity |].
      apply Rmult_le_reg_r with aspectRatio; [exact Hr |].
      rewrite Hdiv. lra.
  - rewrite lockAspectRatio_above by exact Hgt.
    cbn [Position.width Position.height].
    apply ratio_gt_cross in Hgt; [| exact Hh].
    split.
    + rewrite Rmax_left; [reflexivity | rewrite Rmult_comm; lra].
    + rewrite Rmax_right; [reflexivity |].
      apply Rmult_le_reg_r with aspectRatio; [exact Hr |].
      rewrite Hdiv. rewrite Rmult_comm. lra.
Qed.

Lemma lockAspectRatio_covering_size_witness :
  let position := Position.mk 0 0 300 100 in
  0 < 2 /\
  0 < Position.height position /\
  Position.width (lockAspectRatio true 2 position)
    = Rmax (Position.width position) (Position.height position * 2) /\
  Position.height (lockAspectRatio true 2 position)
    = Rmax (Position.height position) (Position.width position / 2).
Proof.
  cbv zeta.
  assert (Hr : 0 < 2) by lra.
  assert (Hh : 0 < Position.height (Position.mk 0 0 300 100)) by (cbn; lra).
  split; [exact Hr | split; [exact Hh |]].
  exact (lockAspectRatio_covering_size 2 (Position.mk 0 0 300 100) Hr Hh).
Defined.

(** X4: for a positive ratio and a position of non-zero height, locking
    twice is locking once: a locked position already has the ratio. *)
Theorem lockAspectRatio_idempotent :
  forall (aspectRatio : R) (position : Position.t),
    0 < aspectRatio ->
    Position.height position <> 0 ->
    lockAspectRatio true aspectRatio
      (lockAspectRatio true aspectRatio position)
    = lockAspectRatio true aspectRatio position.
Proof.
  intros aspectRatio position Hr Hnz.
  apply lockAspectRatio_equal.
  destruct (Rtotal_order (Position.width position / Position.height position)
              aspectRatio) as [Hlt | [Heq | Hgt]].
  - rewrite lockAspectRatio_below by exact Hlt.
    cbn [Position.width Position.height]. field. exact Hnz.
  - rewrite lockAspectRatio_equal by exact Heq. exact Heq.
  - rewrite lockAspectRatio_above by exact Hgt.
    cbn [Position.width Position.height].
    assert (Hwnz : Position.width position <> 0).
    { intro H0. rewrite H0 in Hgt.
      unfold Rdiv in Hgt. rewrite Rmult_0_l in Hgt.
      unfold Rgt in Hgt. lra. }
    field. split; [lra | exact Hwnz].
Qed.

Lemma lockAspectRatio_idempotent_witness :
  let position := Position.mk 0 0 300 100 in
  0 < 2 /\
  Position.height position <> 0 /\
  lockAspectRatio true 2 (lockAspectRatio true 2 position)
    = lockAspectRatio true 2 position.
Proof.
  cbv zeta.
  assert (Hr : 0 < 2) by lra.
  assert (Hnz : Position.height (Position.mk 0 0 300 100) <> 0)
    by (cbn; lra).
  split; [exact Hr | split; [exact Hnz |]].
  exact (lockAspectRatio_idempotent 2 (Position.mk 0 0 300 100) Hr Hnz).
Defined.

(** ** Applying the change to the edges *)

(** X5: the edge opposite to the dragged one never moves.  With the left
    edge active the right edge [left + width] is the old one, otherwise
    [left] is the old one; with the top edge active the bottom edge
    [top + height] is the old one, otherwise [top] is the old one.  For
    every combination of flags and every change. *)
Theorem applyToOriginalDimensions_opposite_edge_fixed :
  forall (oldPosition : Position.t) (top right bottom left : option bool)
         (change : Dimensions.t),
    let p := applyToOriginalDimensions oldPosition top right bottom left
               change in
    (if truthy left
     then Position.left p + Position.width p
          = Position.left oldPosition + Position.width oldPosition
     else Position.left p = Position.left oldPosition) /\
    (if truthy top
     then Position.top p + Position.height p
          = Position.top oldPosition + Position.height oldPosition
     else Position.top p = Position.top oldPosition).
Proof.
  intros oldPosition top right bottom left change p. subst p.
  unfold applyToOriginalDimensions.
  cbn [Position.left Position.top Position.width Position.height].
  destruct (truthy left), (truthy top); split; try reflexivity; ring.
Qed.

(** X6: a change of zero leaves the old position as it is, whatever the
    edge flags. *)
Theorem applyToOriginalDimensions_no_change :
  forall (oldPosition : Position.t) (top right bottom left : option bool),
    applyToOriginalDimensions oldPosition top right bottom left
      (Dimensions.mk 0 0)
    = oldPosition.
Proof.
  intros [l t w h] top right bottom left.
  unfold applyToOriginalDimensions.
  cbn [Position.left Position.top Position.width Position.height
       Dimensions.width Dimensions.height].
  destruct (truthy left), (truthy top), (truthy right), (truthy bottom);
    apply position_eq; ring.
Qed.

(** ** Rotation unwinding *)

(** X7: the local delta has the length of the polar delta:
    [width^2 + height^2 = distance^2], for every old rotation. *)
Theorem horizontalAndVerticalChange_keeps_length :
  forall (oldRotation : R) (angleAndDistanceChange : AngleAndDistance.t),
    let change :=
      horizontalAndVerticalChange oldRotation angleAndDistanceChange in
    Dimensions.width change * Dimensions.width change
      + Dimensions.height change * Dimensions.height change
    = AngleAndDistance.distance angleAndDistanceChange
        * AngleAndDistance.distance angleAndDistanceChange.
Proof.
  intros oldRotation ad change. subst change.
  unfold horizontalAndVerticalChange.
  cbn [Dimensions.width Dimensions.height].
  set (a := (AngleAndDistance.angle ad - oldRotation) * PI / 180).
  pose proof (sin2_cos2 a) as Hunit. unfold Rsqr in Hunit.
  set (d := AngleAndDistance.distance ad).
  replace (d * cos a * (d * cos a) + d * sin a * (d * sin a))
    with (d * d * (sin a * sin a + cos a * cos a)) by ring.
  rewrite Hunit. ring.
Qed.

(** X8: a full turn more in the old rotation, or in the angle of the
    polar delta, gives the same local delta. *)
Theorem horizontalAndVerticalChange_full_turn :
  forall (oldRotation angle distance : R),
    horizontalAndVerticalChange (oldRotation - 360)
      (AngleAndDistance.mk angle distance)
    = horizontalAndVerticalChange oldRotation
        (AngleAndDistance.mk angle distance) /\
    horizontalAndVerticalChange oldRotation
      (AngleAndDistance.mk (angle + 360) distance)
    = horizontalAndVerticalChange oldRotation
        (AngleAndDistance.mk angle distance).
Proof.
  intros oldRotation angle distance.
  unfold horizontalAndVerticalChange.
  cbn [AngleAndDistance.angle AngleAndDistance.distance].
  replace ((angle - (oldRotation - 360)) * PI / 180)
    with ((angle - oldRotation) * PI / 180 + 2 * INR 1 * PI)
    by (cbn [INR]; field).
  replace ((angle + 360 - oldRotation) * PI / 180)
    with ((angle - oldRotation) * PI / 180 + 2 * INR 1 * PI)
    by (cbn [INR]; field).
  rewrite cos_period, sin_period. split; reflexivity.
Qed.

(** ** From the pointer to the local delta, in general *)

(** The direction of a pointer displacement, turned back by a rotation. *)
Lemma angleBetweenPoints_unwound :
  forall x0 y0 x1 y1 oldRotation,
    let theta := Math_atan2 (y1 - y0) (x1 - x0) in
    let rho := oldRotation * PI / 180 in
    cos ((angleBetweenPoints x0 y0 x1 y1 - oldRotation) * PI / 180)
      = cos theta * cos rho + sin theta * sin rho /\
    sin ((angleBetweenPoints x0 y0 x1 y1 - oldRotation) * PI / 180)
      = sin theta * cos rho - cos theta * sin rho.
Proof.
  intros x0 y0 x1 y1 oldRotation theta rho.
  pose proof PI_neq0 as Hpi.
  unfold angleBetweenPoints. fold theta. cbv zeta.
  destruct (Rlt_dec (theta * 180 / PI) 0) as [_ | _].
  - replace ((theta * 180 / PI + 360 - oldRotation) * PI / 180)
      with (theta - rho + 2 * INR 1 * PI)
      by (subst rho; cbn [INR]; field; exact Hpi).
    rewrite cos_period, sin_period, cos_minus, sin_minus.
    split; reflexivity.
  - replace ((theta * 180 / PI - oldRotation) * PI / 180)
      with (theta - rho) by (subst rho; field; exact Hpi).
    rewrite cos_minus, sin_minus. split; reflexivity.
Qed.

(** X9: the first two stages together.  For a non-zero scale, the local
    delta of a mousemove is its displacement from the mousedown point,
    turned back by the old rotation and divided by the scale. *)
Theorem local_delta_is_unwound_displacement :
  forall (originX originY scale oldRotation : R) (e : MouseEvent.t),
    scale <> 0 ->
    let dx := MouseEvent.clientX e - originX in
    let dy := MouseEvent.clientY e - originY in
    let rho := oldRotation * PI / 180 in
    horizontalAndVerticalChange oldRotation
      (angleAndDistanceFromPointToMouseEvent originX originY scale e)
    = Dimensions.mk ((dx * cos rho + dy * sin rho) / scale)
                    ((dy * cos rho - dx * sin rho) / scale).
Proof.
  intros originX originY scale oldRotation e Hscale dx dy rho.
  unfold horizontalAndVerticalChange, angleAndDistanceFromPointToMouseEvent.
  cbn [AngleAndDistance.angle AngleAndDistance.distance].
  destruct (angleBetweenPoints_unwound originX originY
              (MouseEvent.clientX e) (MouseEvent.clientY e) oldRotation)
    as [Hc Hs].
  fold rho in Hc, Hs. rewrite Hc, Hs.
  unfold distanceBetweenPoints. fold dx dy.
  destruct (polar_to_cartesian dx dy) as [Hx Hy].
  set (r := sqrt (dx * dx + dy * dy)) in *.
  set (theta := Math_atan2 dy dx) in *.
  f_equal.
  - replace (r / scale * (cos theta * cos rho + sin theta * sin rho))
      with ((r * cos theta * cos rho + r * sin theta * sin rho) / scale)
      by (field; exact Hscale).
    rewrite Hx, Hy. reflexivity.
  - replace (r / scale * (sin theta * cos rho - cos theta * sin rho))
      with ((r * sin theta * cos rho - r * cos theta * sin rho) / scale)
      by (field; exact Hscale).
    rewrite Hx, Hy. reflexivity.
Qed.

Lemma local_delta_is_unwound_displacement_witness :
  2 <> 0 /\
  horizontalAndVerticalChange 90
    (angleAndDistanceFromPointToMouseEvent 200 200 2 (leftButton 250 240))
  = Dimensions.mk
      (((250 - 200) * cos (90 * PI / 180) + (240 - 200) * sin (90 * PI / 180))
       / 2)
      (((240 - 200) * cos (90 * PI / 180) - (250 - 200) * sin (90 * PI / 180))
       / 2).
Proof.
  assert (Hscale : 2 <> 0) by lra.
  split; [exact Hscale |].
  exact (local_delta_is_unwound_displacement 200 200 2 90
           (leftButton 250 240) Hscale).
Defined.

(** X10: a mousemove at the very point of the mousedown.  Whatever the
    rotation, the handle and the (non-zero) scale, the position that
    reaches the deduplication is the old position raised to the minimum
    and snapped. *)
Theorem mousemove_at_origin :
  forall (options : Options.t) (s : Session.t) (move : MouseEvent.t),
    Session.scale s <> 0 ->
    MouseEvent.clientX move = MouseEvent.clientX (Session.e s) ->
    MouseEvent.clientY move = MouseEvent.clientY (Session.e s) ->
    snappedPosition options s move
    = snapObjectValues (Options.snap options)
        (limitToTwentyPxMinimum (Session.oldPosition s)).
Proof.
  intros options s move Hscale Hx Hy.
  unfold snappedPosition.
  rewrite local_delta_is_unwound_displacement by exact Hscale.
  cbv zeta. rewrite Hx, Hy.
  replace ((MouseEvent.clientX (Session.e s) - MouseEvent.clientX (Session.e s))
           * cos (Session.oldRotation s * PI / 180)
           + (MouseEvent.clientY (Session.e s) - MouseEvent.clientY (Session.e s))
             * sin (Session.oldRotation s * PI / 180)) with 0 by ring.
  replace ((MouseEvent.clientY (Session.e s) - MouseEvent.clientY (Session.e s))
           * cos (Session.oldRotation s * PI / 180)
           - (MouseEvent.clientX (Session.e s) - MouseEvent.clientX (Session.e s))
             * sin (Session.oldRotation s * PI / 180)) with 0 by ring.
  replace (0 / Session.scale s) with 0 by (field; exact Hscale).
  rewrite applyToOriginalDimensions_no_change. reflexivity.
Qed.

Lemma mousemove_at_origin_witness :
  let s := startSession 0 (leftButton 200 200) plainElement in
  Session.scale s <> 0 /\
  MouseEvent.clientX (leftButton 200 200) = MouseEvent.clientX (Session.e s) /\
  MouseEvent.clientY (leftButton 200 200) = MouseEvent.clientY (Session.e s) /\
  snappedPosition eHandleSnapFifty s (leftButton 200 200)
  = snapObjectValues (Options.snap eHandleSnapFifty)
      (limitToTwentyPxMinimum (Session.oldPosition s)).
Proof.
  cbv zeta.
  assert (Hscale :
    Session.scale (startSession 0 (leftButton 200 200) plainElement) <> 0).
  { cbn [startSession Session.scale plainElement Element.scale]. lra. }
  split; [exact Hscale | split; [reflexivity | split; [reflexivity |]]].
  exact (mousemove_at_origin eHandleSnapFifty
           (startSession 0 (leftButton 200 200) plainElement)
           (leftButton 200 200) Hscale eq_refl eq_refl).
Defined.

(** ** Anchor correction, in general *)

(** X11: a position that did not change is not corrected: for every
    implementation of [corners], every matrix and every combination of
    flags, the stage returns the old position when given the old
    position. *)
Theorem offsetForVisualConsistency_unchanged :
  forall (corners : Position.t -> Matrix.t -> Corners.t)
         (oldPosition : Position.t) (transformMatrix : Matrix.t)
         (top right bottom left : option bool),
    offsetForVisualConsistency corners oldPosition transformMatrix
      top right bottom left oldPosition
    = oldPosition.
Proof.
  intros corners [l t w h] transformMatrix top right bottom left.
  unfold offsetForVisualConsistency.
  destruct (truthy bottom && truthy left);
    [| destruct (truthy top && truthy right);
       [| destruct (truthy top || truthy left)]];
    cbn [fst snd Position.left Position.top Position.width Position.height];
    apply position_eq; try reflexivity; ring.
Qed.

(** The stage moves the candidate by minus the displacement of the
    anchor. *)
Lemma offsetForVisualConsistency_moves :
  forall (corners : Position.t -> Matrix.t -> Corners.t)
         (oldPosition newPosition : Position.t) (transformMatrix : Matrix.t)
         (top right bottom left : option bool),
    let anchor := anchorOf top right bottom left in
    offsetForVisualConsistency corners oldPosition transformMatrix
      top right bottom left newPosition
    = movePosition newPosition
        (- (Point.x (cornerAt anchor (corners newPosition transformMatrix))
            - Point.x (cornerAt anchor (corners oldPosition transformMatrix))))
        (- (Point.y (cornerAt anchor (corners newPosition transformMatrix))
            - Point.y (cornerAt anchor (corners oldPosition transformMatrix)))).
Proof.
  intros corners oldPosition newPosition transformMatrix
         top right bottom left anchor.
  subst anchor.
  unfold offsetForVisualConsistency, anchorOf, movePosition.
  destruct (truthy bottom && truthy left);
    [| destruct (truthy top && truthy right);
       [| destruct (truthy top || truthy left)]];
    cbn [fst snd cornerAt]; reflexivity.
Qed.

(** X12: anchor invariance for all eight handles.  For every
    implementation of [corners] under which moving a position moves its
    corners alike, and for every candidate position and combination of
    flags, the anchor corner selected by the flags is, after the
    correction, where the old position has it. *)
Theorem offsetForVisualConsistency_keeps_anchor :
  forall (corners : Position.t -> Matrix.t -> Corners.t)
         (oldPosition newPosition : Position.t) (transformMatrix : Matrix.t)
         (top right bottom left : option bool),
    moves_with_position corners transformMatrix ->
    let anchor := anchorOf top right bottom left in
    cornerAt anchor
      (corners
         (offsetForVisualConsistency corners oldPosition transformMatrix
            top right bottom left newPosition)
         transformMatrix)
    = cornerAt anchor (corners oldPosition transformMatrix).
Proof.
  intros corners oldPosition newPosition transformMatrix
         top right bottom left Hmoves anchor.
  rewrite offsetForVisualConsistency_moves. fold anchor.
  rewrite Hmoves.
  destruct (cornerAt anchor (corners oldPosition transformMatrix))
    as [x y] eqn:Hold.
  cbn [Point.x Point.y].
  apply point_eq; ring.
Qed.

(** The modelled [corners] moves with the position under a transform
    without rotation or scale. *)
Lemma corners_moves_with_position :
  forall e f, moves_with_position corners (translation e f).
Proof.
  intros e f p dx dy anchor.
  unfold corners, applyToPoint, translation, movePosition.
  destruct anchor; cbn [cornerAt Corners.nw Corners.ne Corners.se Corners.sw
                        Point.x Point.y Position.left Position.top
                        Position.width Position.height
                        Matrix.a Matrix.b Matrix.c Matrix.d Matrix.e Matrix.f];
    apply point_eq; ring.
Qed.

Lemma offsetForVisualConsistency_keeps_anchor_witness :
  moves_with_position corners (translation 0 0) /\
  cornerAt (anchorOf None (Some true) (Some true) (Some true))
    (corners
       (offsetForVisualConsistency corners (Position.mk 100 100 200 100)
          (translation 0 0) None (Some true) (Some true) (Some true)
          (Position.mk 130 100 20 150))
       (translation 0 0))
  = cornerAt (anchorOf None (Some true) (Some true) (Some true))
      (corners (Position.mk 100 100 200 100) (translation 0 0)).
Proof.
  split; [exact (corners_moves_with_position 0 0) |].
  exact (offsetForVisualConsistency_keeps_anchor corners
           (Position.mk 100 100 200 100) (Position.mk 130 100 20 150)
           (translation 0 0) None (Some true) (Some true) (Some true)
           (corners_moves_with_position 0 0)).
Defined.

(** * Further properties of the observable *)

(** ** Mousedowns that are not left clicks *)

Lemma step_other_mousedown :
  forall decimals options st ev,
    isOtherMouseDown ev = true ->
    step decimals options st ev = (st, []).
Proof.
  intros decimals options st [e element | move parent | |] Hother;
    try discriminate.
  cbn [step]. cbn [isOtherMouseDown] in Hother.
  destruct (MouseEvent.which e =? 1)%Z; [discriminate | reflexivity].
Qed.

(** X13: mousedowns with another button are invisible: removing them from
    any sequence of events, from any state, gives the same final state and
    the same emissions. *)
Theorem other_mousedowns_ignored :
  forall (decimals : nat) (options : Options.t) (evs : list Event)
         (st : State.t),
    run decimals options st evs
    = run decimals options st
        (filter (fun ev => negb (isOtherMouseDown ev)) evs).
Proof.
  intros decimals options evs.
  induction evs as [| ev evs IH]; intros st; [reflexivity |].
  cbn [filter].
  destruct (isOtherMouseDown ev) eqn:Hother; cbn [negb].
  - rewrite run_cons, step_other_mousedown by exact Hother.
    cbn [fst snd app]. rewrite <- IH.
    destruct (run decimals options st evs); reflexivity.
  - rewrite (run_cons decimals options ev evs).
    rewrite (run_cons decimals options ev (filter _ evs)).
    rewrite <- IH. reflexivity.
Qed.

(** ** Without a running session *)

Lemma run_idle :
  forall decimals options evs st,
    State.active st = None ->
    Forall (fun ev => isLeftMouseDown ev = false) evs ->
    run decimals options st evs = (st, []).
Proof.
  intros decimals options evs.
  induction evs as [| ev evs IH]; intros st Hidle Hevs; [reflexivity |].
  inversion Hevs as [| ? ? Hev Hrest]; subst.
  assert (Hstep : step decimals options st ev = (st, [])).
  { destruct ev as [e element | move parent | |]; cbn [step].
    - cbn [isLeftMouseDown] in Hev. rewrite Hev. reflexivity.
    - rewrite Hidle. reflexivity.
    - rewrite Hidle. reflexivity.
    - rewrite Hidle. reflexivity. }
  rewrite run_cons, Hstep. cbn [fst snd app].
  rewrite (IH st Hidle Hrest). reflexivity.
Qed.

(** X14: nothing happens outside a session.  A mouseup always leaves the
    observable without a running session; and without one (before the
    first left mousedown, or after a mouseup) mousemoves, mouseups, frames
    and other-button mousedowns emit nothing, invoke no callback and leave
    the state as it is. *)
Theorem idle_until_left_mousedown :
  forall (decimals : nat) (options : Options.t) (st : State.t)
         (evs : list Event),
    Forall (fun ev => isLeftMouseDown ev = false) evs ->
    State.active (fst (step decimals options st MouseUp)) = None /\
    run decimals options (fst (step decimals options st MouseUp)) evs
    = (fst (step decimals options st MouseUp), []) /\
    run decimals options initial evs = (initial, []).
Proof.
  intros decimals options st evs Hevs.
  assert (Hidle : State.active (fst (step decimals options st MouseUp)) = None).
  { cbn [step]. destruct (State.active st) eqn:Hactive; cbn; [reflexivity |].
    exact Hactive. }
  split; [exact Hidle |].
  split; apply run_idle; try assumption; reflexivity.
Qed.

Lemma idle_until_left_mousedown_witness :
  let evs := [MouseMove (leftButton 250 240) (Parent.mk 800 600);
              AnimationFrame; MouseUp;
              MouseDown (MouseEvent.mk 3 10 10 false) plainElement] in
  Forall (fun ev => isLeftMouseDown ev = false) evs /\
  run 2 seHandle initial evs = (initial, []).
Proof.
  cbv zeta.
  assert (Hevs :
    Forall (fun ev => isLeftMouseDown ev = false)
      [MouseMove (leftButton 250 240) (Parent.mk 800 600);
       AnimationFrame; MouseUp;
       MouseDown (MouseEvent.mk 3 10 10 false) plainElement]).
  { repeat constructor. }
  split; [exact Hevs |].
  exact (proj2 (proj2 (idle_until_left_mousedown 2 seHandle initial _ Hevs))).
Defined.

(** ** The snapshot during a session *)

Lemma sameSnapshot_refl : forall s, sameSnapshot s s.
Proof. intros s; repeat split. Qed.

Lemma step_keeps_snapshot :
  forall decimals options st s ev,
    fresh_invariant st ->
    State.active st = Some s ->
    isMoveOrFrame ev = true ->
    exists s',
      State.active (fst (step decimals options st ev)) = Some s' /\
      sameSnapshot s s'.
Proof.
  intros decimals options st s ev Hfresh Hactive Hev.
  destruct ev as [e element | move parent | |]; try discriminate;
    cbn [step]; rewrite Hactive.
  - unfold fresh_invariant in Hfresh. rewrite Hactive in Hfresh.
    rewrite onMouseMove_passes by exact Hfresh.
    eexists. split; [reflexivity |]. repeat split.
  - destruct (throttleFrame (Session.kept s)) as [kept out].
    eexists. split; [reflexivity |]. repeat split.
Qed.

Lemma run_keeps_snapshot :
  forall decimals options evs st s,
    fresh_invariant st ->
    State.active st = Some s ->
    Forall (fun ev => isMoveOrFrame ev = true) evs ->
    exists s',
      State.active (fst (run decimals options st evs)) = Some s' /\
      sameSnapshot s s'.
Proof.
  intros decimals options evs.
  induction evs as [| ev evs IH]; intros st s Hfresh Hactive Hevs.
  - exists s. split; [exact Hactive | apply sameSnapshot_refl].
  - inversion Hevs as [| ? ? Hev Hrest]; subst.
    destruct (step_keeps_snapshot decimals options st s ev Hfresh Hactive Hev)
      as [s1 [Hactive1 Hsame1]].
    rewrite run_cons. cbn [fst].
    destruct (IH (fst (step decimals options st ev)) s1
                (step_fresh decimals options st ev Hfresh) Hactive1 Hrest)
      as [s2 [Hactive2 Hsame2]].
    exists s2. split; [exact Hactive2 |].
    destruct Hsame1 as [H1 [H2 [H3 [H4 [H5 H6]]]]].
    destruct Hsame2 as [K1 [K2 [K3 [K4 [K5 K6]]]]].
    repeat split; etransitivity; eassumption.
Qed.

(** X15: no drift and no suppression.  After any history that leaves a
    session running, and any further mousemoves and frames, the next
    mousemove is emitted at the next frame, and the emitted value is
    computed from that mousemove and the snapshot taken at the mousedown
    alone: earlier mousemoves of the session have no influence. *)
Theorem sample_computed_from_snapshot :
  forall (decimals : nat) (options : Options.t) (history evs : list Event)
         (s : Session.t) (move : MouseEvent.t) (parent : Parent.t),
    State.active (fst (run decimals options initial history)) = Some s ->
    Forall (fun ev => isMoveOrFrame ev = true) evs ->
    snd (run decimals options
           (fst (run decimals options
                   (fst (run decimals options initial history)) evs))
           [MouseMove move parent; AnimationFrame])
    = [emission decimals options s parent
         (afterDistinct options s (snappedPosition options s move))].
Proof.
  intros decimals options history evs s move parent Hactive Hevs.
  pose proof (run_fresh decimals options history initial I) as Hfresh.
  destruct (run_keeps_snapshot decimals options evs _ s Hfresh Hactive Hevs)
    as [s' [Hactive' [Hid [He [Hp [Hr [Hm Hs]]]]]]].
  destruct (mousemove_then_frame decimals options _ s' move parent
              (run_fresh decimals options evs _ Hfresh) Hactive')
    as [st' [Hrun _]].
  rewrite Hrun. cbn [snd].
  rewrite (emission_snapshot decimals options s s' move parent
             Hid He Hp Hr Hm Hs).
  reflexivity.
Qed.

Lemma sample_computed_from_snapshot_witness :
  let history := [MouseDown (leftButton 200 200) plainElement] in
  let evs := [MouseMove (leftButton 210 205) (Parent.mk 800 600);
              AnimationFrame;
              MouseMove (leftButton 300 100) (Parent.mk 800 600)] in
  let s := startSession 0 (leftButton 200 200) plainElement in
  State.active (fst (run 2 seHandle initial history)) = Some s /\
  Forall (fun ev => isMoveOrFrame ev = true) evs /\
  snd (run 2 seHandle
         (fst (run 2 seHandle (fst (run 2 seHandle initial history)) evs))
         [MouseMove (leftButton 250 240) (Parent.mk 800 600); AnimationFrame])
  = [emission 2 seHandle s (Parent.mk 800 600)
       (afterDistinct seHandle s
          (snappedPosition seHandle s (leftButton 250 240)))].
Proof.
  cbv zeta.
  assert (Hactive :
    State.active
      (fst (run 2 seHandle initial
              [MouseDown (leftButton 200 200) plainElement]))
    = Some (startSession 0 (leftButton 200 200) plainElement))
    by reflexivity.
  assert (Hevs :
    Forall (fun ev => isMoveOrFrame ev = true)
      [MouseMove (leftButton 210 205) (Parent.mk 800 600);
       AnimationFrame;
       MouseMove (leftButton 300 100) (Parent.mk 800 600)])
    by (repeat constructor).
  split; [exact Hactive | split; [exact Hevs |]].
  exact (sample_computed_from_snapshot 2 seHandle
           [MouseDown (leftButton 200 200) plainElement]
           [MouseMove (leftButton 210 205) (Parent.mk 800 600);
            AnimationFrame;
            MouseMove (leftButton 300 100) (Parent.mk 800 600)]
           (startSession 0 (leftButton 200 200) plainElement)
           (leftButton 250 240) (Parent.mk 800 600) Hactive Hevs).
Defined.

(** ** Completions *)

Lemma step_completions :
  forall decimals options st ev,
    (State.completions st + running st <= State.started st)%nat ->
    (State.completions (fst (step decimals options st ev))
       + running (fst (step decimals options st ev))
     <= State.started (fst (step decimals options st ev)))%nat /\
    (Options.onComplete options = false ->
     State.completions (fst (step decimals options st ev))
     = State.completions st).
Proof.
  intros decimals options st ev Hinv.
  unfold running in *.
  destruct ev as [e element | move parent | |]; cbn [step].
  - destruct (MouseEvent.which e =? 1)%Z; cbn; [| auto].
    split; [| reflexivity].
    destruct (State.active st); lia.
  - destruct (State.active st) as [s |] eqn:Hactive;
      [| cbn; rewrite Hactive; auto].
    destruct (onMouseMove decimals options s move parent
                (State.nextAddress st)) as [s' next].
    cbn. auto.
  - destruct (State.active st) as [s |] eqn:Hactive;
      [| cbn; rewrite Hactive; auto].
    cbn. split.
    + destruct (Options.onComplete options); lia.
    + intros Hnone. rewrite Hnone. reflexivity.
  - destruct (State.active st) as [s |] eqn:Hactive;
      [| cbn; rewrite Hactive; auto].
    destruct (throttleFrame (Session.kept s)) as [kept out].
    cbn. auto.
Qed.

(** X16: the completion callback is invoked at most once per started
    session and never for the running one: after any sequence of events,
    the invocations plus the running session do not exceed the sessions
    started; and without a callback nothing is counted. *)
Theorem completions_bounded_by_sessions :
  forall (decimals : nat) (options : Options.t) (evs : list Event),
    let st := fst (run decimals options initial evs) in
    (State.completions st + running st <= State.started st)%nat /\
    (Options.onComplete options = false -> State.completions st = 0%nat).
Proof.
  intros decimals options evs st. subst st.
  assert (Hgen : forall st0,
    (State.completions st0 + running st0 <= State.started st0)%nat ->
    (State.completions (fst (run decimals options st0 evs))
       + running (fst (run decimals options st0 evs))
     <= State.started (fst (run decimals options st0 evs)))%nat /\
    (Options.onComplete options = false ->
     State.completions (fst (run decimals options st0 evs))
     = State.completions st0)).
  { induction evs as [| ev evs IH]; intros st0 Hinv; [auto |].
    rewrite run_cons. cbn [fst].
    destruct (step_completions decimals options st0 ev Hinv) as [Hinv1 Hsame1].
    destruct (IH _ Hinv1) as [Hinv2 Hsame2].
    split; [exact Hinv2 |].
    intros Hnone. rewrite (Hsame2 Hnone). apply Hsame1, Hnone. }
  destruct (Hgen initial) as [Hbound Hsame]; [cbn; lia |].
  split; [exact Hbound | exact Hsame].
Qed.

(** ** Units of the emitted strings *)

Lemma emission_units :
  forall decimals options s parent position,
    unitsAre (shouldConvert options)
      (Emission.strings (emission decimals options s parent position)).
Proof.
  intros decimals options s parent position.
  unfold emission, convertDimensionsToPercent, unitsAre.
  cbn [Emission.strings].
  destruct (shouldConvert options); cbn; repeat split.
Qed.

Lemma step_units :
  forall decimals options st ev,
    (forall s em, State.active st = Some s -> Session.kept s = Some em ->
                  unitsAre (shouldConvert options) (Emission.strings em)) ->
    (forall s em,
       State.active (fst (step decimals options st ev)) = Some s ->
       Session.kept s = Some em ->
       unitsAre (shouldConvert options) (Emission.strings em)) /\
    Forall (fun em => unitsAre (shouldConvert options) (Emission.strings em))
      (snd (step decimals options st ev)).
Proof.
  intros decimals options st ev Hinv.
  destruct ev as [e element | move parent | |]; cbn [step].
  - destruct (MouseEvent.which e =? 1)%Z; cbn [fst snd].
    + split; [| constructor].
      intros s em Hs Hem. cbn in Hs. injection Hs as <-. discriminate.
    + split; [exact Hinv | constructor].
  - destruct (State.active st) as [s |] eqn:Hactive;
      [| cbn [fst snd]; split;
         [intros s em Hs; rewrite Hactive in Hs; discriminate
         | constructor]].
    unfold onMouseMove, bind, ret.
    destruct (beforeDistinct options s move (State.nextAddress st))
      as [snapped next].
    split; [| constructor].
    intros s' em Hs Hem. cbn in Hs. injection Hs as <-.
    destruct (distinctUntilChanged (Session.previous s) snapped).
    + cbn in Hem. injection Hem as <-. apply emission_units.
    + exact (Hinv s em eq_refl Hem).
  - destruct (State.active st) as [s |] eqn:Hactive;
      [| cbn [fst snd]; split;
         [intros s em Hs; rewrite Hactive in Hs; discriminate
         | constructor]].
    cbn [fst snd]. split.
    + intros s' em Hs. discriminate.
    + destruct (Session.kept s) as [em |] eqn:Hkept; cbn.
      * constructor; [exact (Hinv s em eq_refl Hkept) | constructor].
      * constructor.
  - destruct (State.active st) as [s |] eqn:Hactive;
      [| cbn [fst snd]; split;
         [intros s em Hs; rewrite Hactive in Hs; discriminate
         | constructor]].
    destruct (Session.kept s) as [em |] eqn:Hkept; cbn.
    + split.
      * intros s' em' Hs Hem. injection Hs as <-. discriminate.
      * constructor; [exact (Hinv s em eq_refl Hkept) | constructor].
    + split; [| constructor].
      intros s' em' Hs Hem. injection Hs as <-. discriminate.
Qed.

(** X17: the unit of the output.  Every emitted value has its four fields
    in the same unit: percentages when [shouldConvertToPercent] is [true]
    or not given (the default), pixels when it is [false]. *)
Theorem emitted_units_follow_option :
  forall (decimals : nat) (options : Options.t) (evs : list Event),
    Forall
      (fun em =>
         unitsAre
           (match Options.shouldConvertToPercent options with
            | Some false => false
            | _ => true
            end)
           (Emission.strings em))
      (snd (run decimals options initial evs)).
Proof.
  intros decimals options evs.
  assert (Hunit :
    match Options.shouldConvertToPercent options with
    | Some false => false
    | _ => true
    end = shouldConvert options).
  { unfold shouldConvert.
    destruct (Options.shouldConvertToPercent options) as [[|] |]; reflexivity. }
  rewrite Hunit.
  assert (Hgen : forall st,
    (forall s em, State.active st = Some s -> Session.kept s = Some em ->
                  unitsAre (shouldConvert options) (Emission.strings em)) ->
    Forall (fun em => unitsAre (shouldConvert options) (Emission.strings em))
      (snd (run decimals options st evs))).
  { induction evs as [| ev evs IH]; intros st Hinv; [constructor |].
    rewrite run_cons. cbn [snd].
    destruct (step_units decimals options st ev Hinv) as [Hinv' Hout].
    apply Forall_app. split; [exact Hout | apply IH; exact Hinv']. }
  apply Hgen. intros s em Hs. discriminate.
Qed.

(** ** The pipeline of one mousemove *)

(** X18: the lock through the whole pipeline.  In a session started with
    the modifier held, from an element of positive width and height, with
    a snap configuration that keeps the minimum: the position computed for
    any mousemove has the width-to-height ratio of the old position, and
    is still at least 20 wide and 20 high. *)
Theorem locked_session_keeps_ratio :
  forall (options : Options.t) (s : Session.t) (move : MouseEvent.t),
    MouseEvent.shiftKey (Session.e s) = true ->
    valid_position (Session.oldPosition s) ->
    snap_keeps_minimum (Options.snap options) ->
    let position := afterDistinct options s (snappedPosition options s move) in
    Position.width position / Position.height position
      = Position.width (Session.oldPosition s)
          / Position.height (Session.oldPosition s) /\
    at_least_twenty position.
Proof.
  intros options s move Hshift Hold Hsnap position. subst position.
  pose proof (snappedPosition_at_least_twenty options s move Hsnap)
    as Hsnapped.
  split.
  - apply afterDistinct_locked_ratio; [exact Hshift | exact Hold |].
    destruct Hsnapped as [_ Hh]. lra.
  - apply afterDistinct_at_least_twenty; assumption.
Qed.

Lemma locked_session_keeps_ratio_witness :
  let s :=
    startSession 0 (MouseEvent.mk 1 200 200 true) plainElement in
  let position :=
    afterDistinct seHandle s (snappedPosition seHandle s (leftButton 250 240)) in
  MouseEvent.shiftKey (Session.e s) = true /\
  valid_position (Session.oldPosition s) /\
  snap_keeps_minimum (Options.snap seHandle) /\
  Position.width position / Position.height position
    = Position.width (Session.oldPosition s)
        / Position.height (Session.oldPosition s) /\
  at_least_twenty position.
Proof.
  cbv zeta.
  assert (Hold :
    valid_position
      (Session.oldPosition
         (startSession 0 (MouseEvent.mk 1 200 200 true) plainElement))).
  { split; cbn [startSession Session.oldPosition plainElement
                Element.position Position.width Position.height]; lra. }
  split; [reflexivity | split; [exact Hold | split; [exact I |]]].
  exact (locked_session_keeps_ratio seHandle
           (startSession 0 (MouseEvent.mk 1 200 200 true) plainElement)
           (leftButton 250 240) eq_refl Hold I).
Defined.

(** X19: handles without the top and the left edge (e, s, se) never move
    the element.  Under a transform without rotation or scale, the
    position computed for any mousemove has the old [left] and [top], even
    when the snap stage had rounded them: the anchor correction takes the
    rounding back. *)
Theorem right_bottom_handles_keep_origin :
  forall (options : Options.t) (s : Session.t) (move : MouseEvent.t)
         (e f : R),
    truthy (Options.top options) = false ->
    truthy (Options.left options) = false ->
    Session.transformMatrix s = translation e f ->
    let position := afterDistinct options s (snappedPosition options s move) in
    Position.left position = Position.left (Session.oldPosition s) /\
    Position.top position = Position.top (Session.oldPosition s).
Proof.
  intros options s move e f Htop Hleft Hmatrix position. subst position.
  unfold afterDistinct. rewrite Hmatrix.
  rewrite offsetForVisualConsistency_anchors_nw by assumption.
  split; reflexivity.
Qed.

Lemma right_bottom_handles_keep_origin_witness :
  let s := startSession 0 (leftButton 200 200) plainElement in
  let position :=
    afterDistinct eHandleSnapFifty s
      (snappedPosition eHandleSnapFifty s (leftButton 110 200)) in
  truthy (Options.top eHandleSnapFifty) = false /\
  truthy (Options.left eHandleSnapFifty) = false /\
  Session.transformMatrix s = translation 0 0 /\
  Position.left position = Position.left (Session.oldPosition s) /\
  Position.top position = Position.top (Session.oldPosition s).
Proof.
  cbv zeta.
  split; [reflexivity | split; [reflexivity | split; [reflexivity |]]].
  exact (right_bottom_handles_keep_origin eHandleSnapFifty
           (startSession 0 (leftButton 200 200) plainElement)
           (leftButton 110 200) 0 0 eq_refl eq_refl eq_refl).
Defined.

(** ** The order of the emissions *)

Lemma StronglySorted_app_le :
  forall (l1 l2 : list nat) (k : nat),
    Forall (fun n => n = k) l1 ->
    Forall (fun n => (k <= n)%nat) l2 ->
    StronglySorted le l2 ->
    StronglySorted le (l1 ++ l2).
Proof.
  intros l1 l2 k Hl1 Hl2 Hsorted.
  induction Hl1 as [| n l1 Hn Hl1 IH]; [exact Hsorted |].
  cbn [app]. constructor; [exact IH |].
  apply Forall_app. split.
  - eapply Forall_impl; [| exact Hl1]. cbn. intros m Hm. lia.
  - eapply Forall_impl; [| exact Hl2]. cbn. intros m Hm. lia.
Qed.

(** What a step emits belongs to the running session, and nothing older
    than that session is left in the state. *)
Lemma step_emits_running_session :
  forall decimals options st ev,
    session_invariant st ->
    match State.active st with
    | Some s =>
        Forall (fun em => Emission.session em = Session.id s)
          (snd (step decimals options st ev)) /\
        sessions_from (Session.id s) (fst (step decimals options st ev))
    | None => snd (step decimals options st ev) = []
    end.
Proof.
  intros decimals options st ev Hinv.
  unfold session_invariant in Hinv.
  destruct (State.active st) as [s |] eqn:Hactive.
  - destruct Hinv as [Hid Hkept].
    pose proof (step_sessions_from decimals options (Session.id s) st ev)
      as Hfrom.
    split.
    + destruct ev as [e element | move parent | |]; cbn [step].
      * destruct (MouseEvent.which e =? 1)%Z; constructor.
      * rewrite Hactive.
        destruct (onMouseMove decimals options s move parent
                    (State.nextAddress st)). constructor.
      * rewrite Hactive. cbn [snd].
        destruct (Session.kept s) as [em |]; cbn; [| constructor].
        constructor; [apply Hkept; reflexivity | constructor].
      * rewrite Hactive.
        destruct (Session.kept s) as [em |]; cbn; [| constructor].
        constructor; [apply Hkept; reflexivity | constructor].
    + apply Hfrom. unfold sessions_from. rewrite Hactive.
      split; [lia |]. split; [lia |].
      intros em Hem. rewrite (Hkept em Hem). lia.
  - destruct ev as [e element | move parent | |]; cbn [step];
      try (rewrite Hactive; reflexivity).
    destruct (MouseEvent.which e =? 1)%Z; reflexivity.
Qed.

(** X20: sessions never interleave.  In every run of the observable the
    emissions are ordered by session: once a value of a later session has
    been emitted, no value of an earlier session follows. *)
Theorem emissions_ordered_by_session :
  forall (decimals : nat) (options : Options.t) (evs : list Event),
    StronglySorted le
      (map Emission.session (snd (run decimals options initial evs))).
Proof.
  intros decimals options evs.
  assert (Hgen : forall st,
    session_invariant st ->
    StronglySorted le
      (map Emission.session (snd (run decimals options st evs)))).
  { induction evs as [| ev evs IH]; intros st Hinv; [constructor |].
    rewrite run_cons. cbn [snd]. rewrite map_app.
    pose proof (step_session_invariant decimals options st ev Hinv) as Hinv1.
    pose proof (step_emits_running_session decimals options st ev Hinv)
      as Hstep.
    destruct (State.active st) as [s |].
    - destruct Hstep as [Hout Hfrom].
      apply StronglySorted_app_le with (k := Session.id s).
      + apply Forall_map. exact Hout.
      + apply Forall_map.
        apply run_sessions_from. exact Hfrom.
      + apply IH. exact Hinv1.
    - rewrite Hstep. cbn [map app]. apply IH. exact Hinv1. }
  apply Hgen. exact I.
Qed.

(** * The anchor of the nw handle *)

(** With the se corner as anchor, the corrected position has its se corner
    where the old position has it. *)
Lemma se_anchor_kept :
  forall (corners : Position.t -> Matrix.t -> Corners.t)
         (oldPosition newPosition : Position.t) (transformMatrix : Matrix.t)
         (top right bottom left : option bool),
    moves_with_position corners transformMatrix ->
    anchorOf top right bottom left = AnchorSE ->
    Corners.se
      (corners
         (offsetForVisualConsistency corners oldPosition transformMatrix
            top right bottom left newPosition)
         transformMatrix)
    = Corners.se (corners oldPosition transformMatrix).
Proof.
  intros corners oldPosition newPosition transformMatrix
         top right bottom left Hmoves Hanchor.
  rewrite offsetForVisualConsistency_moves. cbv zeta. rewrite Hanchor.
  pose proof (Hmoves newPosition
    (- (Point.x (cornerAt AnchorSE (corners newPosition transformMatrix))
        - Point.x (cornerAt AnchorSE (corners oldPosition transformMatrix))))
    (- (Point.y (cornerAt AnchorSE (corners newPosition transformMatrix))
        - Point.y (cornerAt AnchorSE (corners oldPosition transformMatrix))))
    AnchorSE) as Hmoved.
  cbn [cornerAt] in Hmoved. cbn [cornerAt]. rewrite Hmoved.
  destruct (Corners.se (corners oldPosition transformMatrix)) as [x y].
  cbn [Point.x Point.y].
  apply point_eq; ring.
Qed.

(** The nw handle has the se corner as anchor. *)
Lemma anchorOf_nw_handle :
  forall right bottom : option bool,
    truthy right = false ->
    truthy bottom = false ->
    anchorOf (Some true) right bottom (Some true) = AnchorSE.
Proof.
  intros right bottom Hright Hbottom.
  unfold anchorOf. rewrite Hright, Hbottom. reflexivity.
Qed.

(** The centre-based reading of [corners] moves with the position under
    every matrix, scaled or rotated. *)
Lemma centredCorners_moves_with_position :
  forall m : Matrix.t, moves_with_position centredCorners m.
Proof.
  intros m p dx dy anchor.
  unfold centredCorners, movePosition.
  destruct anchor;
    cbn [cornerAt Corners.nw Corners.ne Corners.se Corners.sw
         Point.x Point.y Position.left Position.top
         Position.width Position.height];
    apply point_eq; ring.
Qed.

(** C3: a resize session on the nw handle (top and left active, anchor
    se) that starts at [{left:100, top:100, width:200, height:100}].  For
    every session matrix, scaled or not, and every implementation of
    [corners] under which moving a position moves its corners alike, for
    every resize delta, whatever the snap step and the lock: after the
    anchor-correction stage the se corner [(left + width, top + height)],
    mapped through the session's matrix, is exactly where the old position
    has it. *)
Theorem nw_resize_keeps_se_corner :
  forall (corners : Position.t -> Matrix.t -> Corners.t)
         (transformMatrix : Matrix.t) (right bottom : option bool)
         (change : Dimensions.t) (snap : option R) (shouldLock : bool),
    moves_with_position corners transformMatrix ->
    truthy right = false ->
    truthy bottom = false ->
    let oldPosition := Position.mk 100 100 200 100 in
    let candidate :=
      lockAspectRatio shouldLock
        (Position.width oldPosition / Position.height oldPosition)
        (snapObjectValues snap
           (limitToTwentyPxMinimum
              (applyToOriginalDimensions oldPosition
                 (Some true) right bottom (Some true) change))) in
    let corrected :=
      offsetForVisualConsistency corners oldPosition transformMatrix
        (Some true) right bottom (Some true) candidate in
    Corners.se (corners corrected transformMatrix)
    = Corners.se (corners oldPosition transformMatrix).
Proof.
  intros corners transformMatrix right bottom change snap shouldLock
         Hmoves Hright Hbottom oldPosition candidate corrected.
  subst corrected.
  apply se_anchor_kept; [exact Hmoves |].
  apply anchorOf_nw_handle; assumption.
Qed.

Lemma nw_resize_keeps_se_corner_witness :
  let oldPosition := Position.mk 100 100 200 100 in
  let candidate :=
    lockAspectRatio false
      (Position.width oldPosition / Position.height oldPosition)
      (snapObjectValues None
         (limitToTwentyPxMinimum
            (applyToOriginalDimensions oldPosition
               (Some true) None None (Some true) (Dimensions.mk 190 30)))) in
  let corrected :=
    offsetForVisualConsistency corners oldPosition identityMatrix
      (Some true) None None (Some true) candidate in
  moves_with_position corners identityMatrix /\
  truthy None = false /\
  Corners.se (corners corrected identityMatrix)
  = Corners.se (corners oldPosition identityMatrix).
Proof.
  cbv zeta.
  assert (Hmoves : moves_with_position corners identityMatrix)
    by exact (corners_moves_with_position 0 0).
  split; [exact Hmoves | split; [reflexivity |]].
  exact (nw_resize_keeps_se_corner corners identityMatrix None None
           (Dimensions.mk 190 30) None false Hmoves eq_refl eq_refl).
Defined.

(** The same drag in a session scaled by 2 without rotation, with the
    centre-based [corners]: the drag of 190 runs into the minimum width,
    and the se corner stays where it was. *)
Lemma scaled_session_keeps_se_anchor :
  let oldPosition := Position.mk 100 100 200 100 in
  let scaled := Matrix.mk 2 0 0 2 0 0 in
  let candidate :=
    limitToTwentyPxMinimum
      (applyToOriginalDimensions oldPosition
         (Some true) None None (Some true) (Dimensions.mk 190 30)) in
  Corners.se
    (centredCorners
       (offsetForVisualConsistency centredCorners oldPosition scaled
          (Some true) None None (Some true) candidate)
       scaled)
  = Corners.se (centredCorners oldPosition scaled).
Proof.
  cbv zeta.
  apply se_anchor_kept;
    [apply centredCorners_moves_with_position | reflexivity].
Qed.

(** * The lock on a candidate without size *)

Lemma session_snapped_on_plain_element :
  forall options id e move,
    snappedPosition options (startSession id e plainElement) move
    = snapObjectValues (Options.snap options)
        (limitToTwentyPxMinimum
           (applyToOriginalDimensions (Position.mk 0 0 100 100)
              (Options.top options) (Options.right options)
              (Options.bottom options) (Options.left options)
              (Dimensions.mk (MouseEvent.clientX move - MouseEvent.clientX e)
                             (MouseEvent.clientY move - MouseEvent.clientY e)))).
Proof.
  intros options id e move.
  unfold snappedPosition, startSession, plainElement.
  cbn [Session.oldPosition Session.oldRotation Session.scale Session.e
       Element.position Element.rotation Element.scale].
  rewrite unrotated_unscaled_change. reflexivity.
Qed.

Lemma snapValue_fifty_of_ninety : snapValue 50 90 = 100.
Proof.
  unfold snapValue, Math_round.
  replace (Zfloor (90 / 50 + / 2)) with 2%Z; [ring |].
  symmetry. apply Zfloor_eq. lra.
Qed.

(** C4, as stated, fails.  The nw handle of the plain element with a
    50-unit snap grid, the modifier held at mousedown, dragged by (90,90):
    width and height 10 are raised to 20 and snapped to 0, so the
    candidate that reaches the lock is [{100, 100, 0, 0}].  The lock
    returns a position of width 0 and height 0, which has no ratio: its
    width over its height is not the target ratio 1. *)
Lemma lockAspectRatio_zero_size_candidate :
  let s := startSession 0 (MouseEvent.mk 1 200 200 true) plainElement in
  let candidate := snappedPosition nwHandleSnapFifty s (leftButton 290 290) in
  let target :=
    Position.width (Session.oldPosition s)
    / Position.height (Session.oldPosition s) in
  let locked :=
    lockAspectRatio (MouseEvent.shiftKey (Session.e s)) target candidate in
  candidate = Position.mk 100 100 0 0 /\
  target = 1 /\
  Position.width locked = 0 /\
  Position.height locked = 0 /\
  Position.width locked / Position.height locked <> target.
Proof.
  cbv zeta.
  assert (Hcandidate :
    snappedPosition nwHandleSnapFifty
      (startSession 0 (MouseEvent.mk 1 200 200 true) plainElement)
      (leftButton 290 290)
    = Position.mk 100 100 0 0).
  { rewrite session_snapped_on_plain_element.
    unfold nwHandleSnapFifty, leftButton,
      limitToTwentyPxMinimum, applyToOriginalDimensions.
    project.
    rewrite snapObjectValues_literal.
    replace (0 + (290 - 200)) with 90 by ring.
    replace (Rmax 20 (100 - (290 - 200))) with 20
      by (rewrite Rmax_left; lra).
    rewrite snapValue_fifty_of_ninety, snapValue_fifty_of_twenty.
    reflexivity. }
  rewrite Hcandidate.
  unfold startSession, plainElement. project.
  assert (Htarget : 100 / 100 = 1) by field.
  rewrite Htarget.
  assert (Hzero : 0 / 0 < 1).
  { unfold Rdiv. rewrite Rmult_0_l. lra. }
  rewrite lockAspectRatio_below by (project; exact Hzero).
  project.
  split; [reflexivity | split; [reflexivity |]].
  split; [ring | split; [reflexivity |]].
  unfold Rdiv. rewrite Rinv_0. lra.
Qed.
